(** * MiniChess (src/MiniChessSkeletonCode.py): a shallow embedding

    The Python class keeps the game state in a dictionary that the methods
    read and mutate in place.  Here the dictionary is the record
    [game_state] and the methods that take a [game_state] are actions of a
    small state-and-exception monad [ST]: [None] is a raised Python
    exception (an [IndexError] or [KeyError]), [Some (a, s')] a normal
    return with value [a] and the dictionary in state [s']. *)

From Stdlib Require Import String Ascii.
From Stdlib Require Import ZArith Lia List Bool.
Import ListNotations.
Open Scope Z_scope.

(** ** Pieces and the board *)

(** Board cells are the strings ['.'], ['wp'], ['bK'], ...: a colour
    character followed by a kind character, or the empty marker. *)
Inductive color := White | Black.
Inductive kind := Pawn | Knight | Bishop | Queen | King.
Inductive cell := Empty | Pc (c : color) (k : kind).

Definition color_eqb (a b : color) : bool :=
  match a, b with
  | White, White | Black, Black => true
  | _, _ => false
  end.

Definition kind_eqb (a b : kind) : bool :=
  match a, b with
  | Pawn, Pawn | Knight, Knight | Bishop, Bishop | Queen, Queen
  | King, King => true
  | _, _ => false
  end.

Definition cell_eqb (a b : cell) : bool :=
  match a, b with
  | Empty, Empty => true
  | Pc c k, Pc c' k' => color_eqb c c' && kind_eqb k k'
  | _, _ => false
  end.

(** [piece[0] == game_state["turn"][0]]: the first character of a cell
    is ['w'], ['b'] or ['.']; the first character of the turn is ['w'] or
    ['b']. *)
Definition same_color (piece : cell) (turn : color) : bool :=
  match piece with
  | Pc c _ => color_eqb c turn
  | Empty => false
  end.

Definition board := list (list cell).

Record game_state := mk_state {
  board_of : board;
  turn : color;
  game_over_reason : string;
  turn_number : Z;
  turns_without_capture : Z;
  turn_no_capture : bool
}.

(** [init_board] *)
Definition init_board : game_state :=
  {| board_of :=
       [[Pc Black King; Pc Black Queen; Pc Black Bishop; Pc Black Knight; Empty];
        [Empty; Empty; Pc Black Pawn; Pc Black Pawn; Empty];
        [Empty; Empty; Empty; Empty; Empty];
        [Empty; Pc White Pawn; Pc White Pawn; Empty; Empty];
        [Empty; Pc White Knight; Pc White Bishop; Pc White Queen; Pc White King]];
     turn := White;
     game_over_reason := "";
     turn_number := 1;
     turns_without_capture := 0;
     turn_no_capture := false |}.

(** ** Python list indexing

    [l[i]]: a negative index counts from the end, an index outside
    [-len l, len l) raises [IndexError] ([None]). *)
Definition py_nth {A} (l : list A) (i : Z) : option A :=
  if i <? 0 then
    if - Z.of_nat (length l) <=? i
    then nth_error l (Z.to_nat (Z.of_nat (length l) + i))
    else None
  else nth_error l (Z.to_nat i).

(** [l[i] = x], with the same index rules. *)
Fixpoint set_nth {A} (l : list A) (n : nat) (x : A) : list A :=
  match l, n with
  | [], _ => []
  | _ :: l', O => x :: l'
  | y :: l', S n' => y :: set_nth l' n' x
  end.

Definition py_set {A} (l : list A) (i : Z) (x : A) : option (list A) :=
  let n := Z.of_nat (length l) in
  if (- n <=? i) && (i <? n) then
    Some (set_nth l (Z.to_nat (if i <? 0 then n + i else i)) x)
  else None.

(** [board[r][c]] *)
Definition py_cell (b : board) (r c : Z) : option cell :=
  match py_nth b r with
  | Some row => py_nth row c
  | None => None
  end.

(** [board[r][c] = x] *)
Definition py_set_cell (b : board) (r c : Z) (x : cell) : option board :=
  match py_nth b r with
  | Some row =>
      match py_set row c x with
      | Some row' => py_set b r row'
      | None => None
      end
  | None => None
  end.

(** ** The state-and-exception monad *)

Definition ST (A : Type) : Type := game_state -> option (A * game_state).

Definition ret {A} (a : A) : ST A := fun s => Some (a, s).

Definition bind {A B} (m : ST A) (k : A -> ST B) : ST B :=
  fun s => match m s with
           | Some (a, s') => k a s'
           | None => None
           end.

Declare Scope st_scope.
Notation "x <- m ;; k" := (bind m (fun x => k))
  (at level 61, m at next level, right associativity) : st_scope.
Open Scope st_scope.

Definition get : ST game_state := fun s => Some (s, s).
Definition put (s : game_state) : ST unit := fun _ => Some (tt, s).

(** Reading [game_state["turn"]] and [game_state["board"]]. *)
Definition read_turn : ST color := fun s => Some (turn s, s).
Definition read_board : ST board := fun s => Some (board_of s, s).

(** A board accessor: how [game_state["board"][r][c]] is evaluated.
    The program uses [py_cell]; move generation is written over an
    arbitrary accessor so that its bounds discipline can be stated. *)
Definition accessor := board -> Z -> Z -> option cell.

Definition read_cell (acc : accessor) (r c : Z) : ST cell :=
  fun s => match acc (board_of s) r c with
           | Some x => Some (x, s)
           | None => None
           end.

(** [for x in l: body], threading a loop variable. *)
Fixpoint for_each {A B} (l : list A) (body : A -> B -> ST B) (b : B) : ST B :=
  match l with
  | [] => ret b
  | x :: l' => b' <- body x b;; for_each l' body b'
  end.

(** [for i, x in enumerate(l, start=i0): body] *)
Fixpoint for_enum {A B} (i : Z) (l : list A) (body : Z -> A -> B -> ST B)
    (b : B) : ST B :=
  match l with
  | [] => ret b
  | x :: l' => b' <- body i x b;; for_enum (i + 1) l' body b'
  end.

(** ** Move generation ([is_valid_coordinate], [valid_moves]) *)

Definition square := (Z * Z)%type.
Definition move := (square * square)%type.

Definition is_valid_coordinate (coordinate : square) : bool :=
  let '(indexed_row, indexed_col) := coordinate in
  (-1 <? indexed_row) && (indexed_row <? 5) &&
  (-1 <? indexed_col) && (indexed_col <? 5).

Section Generation.

Variable acc : accessor.

(** Pawn: one step forward onto an empty square, and the two diagonal
    captures. *)
Definition pawn_moves (row_index col_index : Z) : ST (list move) :=
  t <- read_turn;;
  let end_row := if color_eqb t White then row_index - 1 else row_index + 1 in
  fwd <- (if is_valid_coordinate (end_row, col_index)
          then x <- read_cell acc end_row col_index;; ret (cell_eqb x Empty)
          else ret false);;
  let moves := if fwd then [((row_index, col_index), (end_row, col_index))]
               else [] in
  for_each [-1; 1]
    (fun column_direction moves =>
       let diagonal_column := col_index + column_direction in
       ok <- (if is_valid_coordinate (end_row, diagonal_column)
              then x <- read_cell acc end_row diagonal_column;;
                   if cell_eqb x Empty then ret false
                   else y <- read_cell acc end_row diagonal_column;;
                        t' <- read_turn;;
                        ret (negb (same_color y t'))
              else ret false);;
       ret (if ok
            then moves ++ [((row_index, col_index), (end_row, diagonal_column))]
            else moves))
    moves.

(** Knight and king: the list comprehension
    [[(r + x, c + y) for x, y in directions
      if is_valid_coordinate((r + x, c + y)) and
         board[r + x][c + y][0] != turn[0]]]. *)
Definition step_moves (directions : list (Z * Z)) (row_index col_index : Z)
    : ST (list move) :=
  end_positions <-
    for_each directions
      (fun d ps =>
         let '(x, y) := d in
         if is_valid_coordinate (row_index + x, col_index + y)
         then p <- read_cell acc (row_index + x) (col_index + y);;
              t <- read_turn;;
              ret (if negb (same_color p t) then ps ++ [(row_index + x, col_index + y)]
                   else ps)
         else ret ps) [];;
  ret (map (fun pos => ((row_index, col_index), pos)) end_positions).

Definition knight_directions : list (Z * Z) :=
  [(-1, -2); (-1, 2); (1, -2); (1, 2); (-2, -1); (-2, 1); (2, -1); (2, 1)].

Definition bishop_directions : list (Z * Z) :=
  [(-1, -1); (-1, 1); (1, -1); (1, 1)].

Definition queen_directions : list (Z * Z) :=
  [(-1, -1); (-1, 0); (-1, 1); (0, -1); (0, 1); (1, -1); (1, 0); (1, 1)].

Definition king_directions : list (Z * Z) := queen_directions.

(** The [while] loop of one ray of a bishop or a queen.  Each iteration
    moves one step along a non-zero unit direction, so from a square of
    the board the coordinate check fails by the fifth step: fuel 5 never
    runs out before the loop's own exit. *)
Fixpoint slide (fuel : nat) (row_index col_index dr dc end_row end_column : Z)
    : ST (list move) :=
  match fuel with
  | O => ret []
  | S fuel' =>
      if is_valid_coordinate (end_row, end_column) then
        x <- read_cell acc end_row end_column;;
        t <- read_turn;;
        if negb (same_color x t) then
          y <- read_cell acc end_row end_column;;
          if negb (cell_eqb y Empty)
          then ret [((row_index, col_index), (end_row, end_column))]
          else rest <- slide fuel' row_index col_index dr dc
                         (end_row + dr) (end_column + dc);;
               ret (((row_index, col_index), (end_row, end_column)) :: rest)
        else ret []
      else ret []
  end.

Definition slide_moves (unit_directions : list (Z * Z)) (row_index col_index : Z)
    : ST (list move) :=
  for_each unit_directions
    (fun direction moves =>
       let '(dr, dc) := direction in
       ray <- slide 5 row_index col_index dr dc (row_index + dr) (col_index + dc);;
       ret (moves ++ ray)) [].

Definition piece_moves (k : kind) (row_index col_index : Z) : ST (list move) :=
  match k with
  | Pawn => pawn_moves row_index col_index
  | Knight => step_moves knight_directions row_index col_index
  | Bishop => slide_moves bishop_directions row_index col_index
  | Queen => slide_moves queen_directions row_index col_index
  | King => step_moves king_directions row_index col_index
  end.

(** [valid_moves]: every append to [moves] made while looking at one
    square is collected in that square's list, in the source's order. *)
Definition valid_moves_with : ST (list move) :=
  b <- read_board;;
  for_enum 0 b
    (fun row_index row moves =>
       for_enum 0 row
         (fun col_index piece moves =>
            t <- read_turn;;
            match piece with
            | Pc c k =>
                if same_color piece t then
                  pm <- piece_moves k row_index col_index;;
                  ret (moves ++ pm)
                else ret moves
            | Empty => ret moves
            end) moves) [].

End Generation.

Definition valid_moves : ST (list move) := valid_moves_with py_cell.

Definition move_eqb (m m' : move) : bool :=
  let '((a, b), (c, d)) := m in
  let '((a', b'), (c', d')) := m' in
  (a =? a') && (b =? b') && (c =? c') && (d =? d').

(** [is_valid_move]: [move in self.valid_moves(game_state)] *)
Definition is_valid_move (m : move) : ST bool :=
  ms <- valid_moves;; ret (existsb (move_eqb m) ms).

Definition run_moves (s : game_state) : option (list move) :=
  match valid_moves s with
  | Some (ms, _) => Some ms
  | None => None
  end.

(** ** Applying a move ([make_move]) *)

Definition set_board (b : board) (s : game_state) : game_state :=
  mk_state b (turn s) (game_over_reason s) (turn_number s)
    (turns_without_capture s) (turn_no_capture s).
Definition set_turn (t : color) (s : game_state) : game_state :=
  mk_state (board_of s) t (game_over_reason s) (turn_number s)
    (turns_without_capture s) (turn_no_capture s).
Definition set_reason (r : string) (s : game_state) : game_state :=
  mk_state (board_of s) (turn s) r (turn_number s)
    (turns_without_capture s) (turn_no_capture s).
Definition set_turn_number (n : Z) (s : game_state) : game_state :=
  mk_state (board_of s) (turn s) (game_over_reason s) n
    (turns_without_capture s) (turn_no_capture s).
Definition set_turns_without_capture (n : Z) (s : game_state) : game_state :=
  mk_state (board_of s) (turn s) (game_over_reason s) (turn_number s)
    n (turn_no_capture s).
Definition set_turn_no_capture (f : bool) (s : game_state) : game_state :=
  mk_state (board_of s) (turn s) (game_over_reason s) (turn_number s)
    (turns_without_capture s) f.

Definition modify (f : game_state -> game_state) : ST unit :=
  fun s => Some (tt, f s).

(** [game_state["board"][r][c] = x] *)
Definition write_cell (r c : Z) (x : cell) : ST unit :=
  fun s => match py_set_cell (board_of s) r c x with
           | Some b => Some (tt, set_board b s)
           | None => None
           end.

Definition is_color (piece : cell) (c : color) : bool := same_color piece c.

Definition is_king (piece : cell) : bool :=
  cell_eqb piece (Pc Black King) || cell_eqb piece (Pc White King).

Definition reason_king_captured : string := "king captured".
Definition reason_max_turns : string := "max turns".
Definition reason_no_captures : string := "no captures".

Section MakeMove.

(** [self.max_turns] *)
Variable max_turns : Z.

Definition make_move (m : move) : ST game_state :=
  let '((start_row, start_col), (end_row, end_col)) := m in
  piece <- read_cell py_cell start_row start_col;;
  end_piece <- read_cell py_cell end_row end_col;;
  _ <- write_cell start_row start_col Empty;;
  _ <- write_cell end_row end_col piece;;
  _ <- (if cell_eqb piece (Pc White Pawn) && (end_row =? 0)
        then write_cell end_row end_col (Pc White Queen)
        else if cell_eqb piece (Pc Black Pawn) && (end_row =? 4)
        then write_cell end_row end_col (Pc Black Queen)
        else ret tt);;
  _ <- (if is_color piece White then
          if cell_eqb end_piece Empty
          then modify (set_turn_no_capture true)
          else _ <- modify (set_turn_no_capture false);;
               modify (set_turns_without_capture 0)
        else if is_color piece Black then
          if negb (cell_eqb end_piece Empty)
          then _ <- modify (set_turn_no_capture false);;
               modify (set_turns_without_capture 0)
          else s <- get;;
               if turn_no_capture s
               then modify (set_turns_without_capture (turns_without_capture s + 1))
               else ret tt
        else ret tt);;
  s <- get;;
  if is_king end_piece then
    _ <- modify (set_reason reason_king_captured);; get
  else if (turn_number s =? max_turns) && is_color piece Black then
    _ <- modify (set_reason reason_max_turns);; get
  else if turns_without_capture s =? 10 then
    _ <- modify (set_reason reason_no_captures);; get
  else
    _ <- modify (set_turn_number
                   (if is_color piece Black then turn_number s + 1
                    else turn_number s));;
    _ <- modify (fun s => set_turn (match turn s with
                                    | White => Black
                                    | Black => White
                                    end) s);;
    get.

End MakeMove.

(** [self.make_move(copy.deepcopy(game_state), move)]: the copy is the
    value [s] itself; the caller's state is untouched. *)
Definition apply_move (max_turns : Z) (m : move) (s : game_state)
    : option game_state :=
  match make_move max_turns m s with
  | Some (s', _) => Some s'
  | None => None
  end.

(** ** Evaluation functions *)

Definition piece_value (k : kind) : Z :=
  match k with
  | Pawn => 1
  | Bishop => 3
  | Knight => 3
  | Queen => 9
  | King => 999
  end.

(** [material_score] *)
Definition material_score (s : game_state) : Z :=
  let '(white_score, black_score) :=
    fold_left
      (fun sc row =>
         fold_left
           (fun '(w, b) piece =>
              match piece with
              | Pc White k => (w + piece_value k, b)
              | Pc Black k => (w, b + piece_value k)
              | Empty => (w, b)
              end) row sc)
      (board_of s) (0, 0) in
  white_score - black_score.

(** [range(a, stop, -1)] and [range(a, stop)] *)
Definition range_down (a stop : Z) : list Z :=
  map (fun i => a - Z.of_nat i) (seq 0 (Z.to_nat (a - stop))).
Definition range_up (a stop : Z) : list Z :=
  map (fun i => a + Z.of_nat i) (seq 0 (Z.to_nat (stop - a))).

(** The last square, in reading order, holding [turn]'s king. *)
Definition find_king (b : board) (t : color) : option square :=
  fst (fold_left
         (fun '(kc, r) row =>
            (fst (fold_left
                    (fun '(kc', c) piece =>
                       (if cell_eqb piece (Pc t King) then Some (r, c) else kc', c + 1))
                    row (kc, 0)), r + 1))
         b (None, 0)).

Definition square_eqb (p q : square) : bool :=
  (fst p =? fst q) && (snd p =? snd q).

(** [for row in rows: for piece in board[row]: if piece[0] == c: n += 1] *)
Fixpoint count_forward (b : board) (rows : list Z) (c : color) : option Z :=
  match rows with
  | [] => Some 0
  | r :: rows' =>
      match py_nth b r, count_forward b rows' c with
      | Some row, Some n =>
          Some (Z.of_nat (length (filter (fun p => same_color p c) row)) + n)
      | _, _ => None
      end
  end.

(** [king_safety_score] *)
Definition king_safety_score (s : game_state) (t : color) : option Z :=
  match find_king (board_of s) t with
  | None => Some (-999)
  | Some king_coordinate =>
      let attacked :=
        if negb (color_eqb (turn s) t) then
          match run_moves s with
          | Some ms => Some (existsb (fun m => square_eqb king_coordinate (snd m)) ms)
          | None => None
          end
        else Some false in
      match attacked with
      | None => None
      | Some true => Some (-999)
      | Some false =>
          match t with
          | White =>
              match count_forward (board_of s) (range_down (fst king_coordinate - 1) (-1)) White with
              | Some n => Some (4 * n - 10)
              | None => None
              end
          | Black =>
              match count_forward (board_of s) (range_up (fst king_coordinate + 1) 5) Black with
              | Some n => Some (4 * n - 10)
              | None => None
              end
          end
      end
  end.

(** A heuristic: [(game_state, turn) -> number], possibly raising. *)
Definition heuristic := game_state -> color -> option Z.

Definition e0 : heuristic := fun s _ => Some (material_score s).

Definition e1 : heuristic := fun s t =>
  match king_safety_score s t with
  | Some k =>
      Some (0 + k + (if color_eqb t White then material_score s
                     else - material_score s))
  | None => None
  end.

Definition e2 : heuristic := fun s t =>
  let counts :=
    fold_left
      (fun acc i =>
         fold_left
           (fun acc j =>
              match acc with
              | None => None
              | Some (w, b) =>
                  match py_cell (board_of s) i j with
                  | Some (Pc White _) => Some (w + 1, b)
                  | Some (Pc Black _) => Some (w, b + 1)
                  | Some Empty => Some (w, b)
                  | None => None
                  end
              end) [1; 2; 3] acc)
      [1; 2; 3] (Some (0, 0)) in
  match counts with
  | Some (w, b) => Some (if color_eqb t White then w - b else b - w)
  | None => None
  end.

(** ** The search ([minimax])

    Scores are Python numbers: the evaluators' integers and the floats
    [-math.inf] and [math.inf]. *)
Inductive ext := NegInf | Fin (z : Z) | PosInf.

(** [x < y] *)
Definition elt (x y : ext) : bool :=
  match x, y with
  | NegInf, NegInf => false
  | NegInf, _ => true
  | Fin a, Fin b => a <? b
  | Fin _, PosInf => true
  | Fin _, NegInf => false
  | PosInf, _ => false
  end.

(** [x <= y] *)
Definition ele (x y : ext) : bool := negb (elt y x).

(** [max(x, y)] and [min(x, y)]: Python returns the first argument unless
    the second is strictly greater (resp. smaller). *)
Definition emax (x y : ext) : ext := if elt x y then y else x.
Definition emin (x y : ext) : ext := if elt y x then y else x.

(** The search counters of the [MiniChess] instance. *)
Record stats := mk_stats {
  total_nodes : Z;
  non_leaf_nodes : Z;
  states_visited_per_depth : list Z
}.

(** [l[i] += 1] *)
Definition py_incr (l : list Z) (i : Z) : option (list Z) :=
  match py_nth l i with
  | Some v => py_set l i (v + 1)
  | None => None
  end.

Definition result := (ext * option move * stats)%type.

Section Search.

(** [self.max_turns], [self.alphabeta], [self.heuristic], [self.depth]. *)
Variable max_turns : Z.
Variable alphabeta : bool.
Variable h : heuristic.
Variable self_depth : Z.

(** The deadline test [time.time() - start_time >= self.timeout - 0.01]
    at a call, as a function of [self.total_nodes] at that point (the
    counter is increased on every call before the test, so any sequence of
    clock readings over a search is such a function). *)
Variable expired : Z -> bool.

(** The [for move in potential_moves] loop of the maximizing branch;
    [child] is the recursive call on the child state with the current
    window. *)
Fixpoint loop_max (child : game_state -> ext -> ext -> stats -> option result)
    (game_state : game_state) (beta : ext) (moves : list move)
    (maximum : ext) (best_move : option move) (alpha : ext) (st : stats)
    : option result :=
  match moves with
  | [] => Some (maximum, best_move, st)
  | m :: moves' =>
      match apply_move max_turns m game_state with
      | None => None
      | Some potential_state =>
          match child potential_state alpha beta st with
          | None => None
          | Some (state_value, _, st') =>
              let '(maximum', best_move') :=
                if elt maximum state_value then (state_value, Some m)
                else (maximum, best_move) in
              if alphabeta then
                let alpha' := emax alpha state_value in
                if ele beta alpha' then Some (maximum', best_move', st')
                else loop_max child game_state beta moves' maximum' best_move' alpha' st'
              else loop_max child game_state beta moves' maximum' best_move' alpha st'
          end
      end
  end.

Fixpoint loop_min (child : game_state -> ext -> ext -> stats -> option result)
    (game_state : game_state) (alpha : ext) (moves : list move)
    (minimum : ext) (best_move : option move) (beta : ext) (st : stats)
    : option result :=
  match moves with
  | [] => Some (minimum, best_move, st)
  | m :: moves' =>
      match apply_move max_turns m game_state with
      | None => None
      | Some potential_state =>
          match child potential_state alpha beta st with
          | None => None
          | Some (state_value, _, st') =>
              let '(minimum', best_move') :=
                if elt state_value minimum then (state_value, Some m)
                else (minimum, best_move) in
              if alphabeta then
                let beta' := emin beta state_value in
                if ele beta' alpha then Some (minimum', best_move', st')
                else loop_min child game_state alpha moves' minimum' best_move' beta' st'
              else loop_min child game_state alpha moves' minimum' best_move' beta st'
          end
      end
  end.

(** [minimax(game_state, depth, turn, start_time, is_max, alpha, beta)].
    The depth is a natural number: the game loop passes the configured
    search depth and each call subtracts one. *)
Fixpoint minimax (game_state : game_state) (depth : nat) (turn : color)
    (is_max : bool) (alpha beta : ext) (st : stats) : option result :=
  let total := total_nodes st + 1 in
  match py_incr (states_visited_per_depth st) (self_depth - Z.of_nat depth) with
  | None => None
  | Some per_depth =>
      let st1 := mk_stats total (non_leaf_nodes st) per_depth in
      let leaf :=
        match h game_state turn with
        | Some v => Some (Fin v, None, st1)
        | None => None
        end in
      match depth with
      | O => leaf
      | S depth' =>
          if negb (String.eqb (game_over_reason game_state) "") || expired total
          then leaf
          else
            let st2 := mk_stats total (non_leaf_nodes st + 1) per_depth in
            match run_moves game_state with
            | None => None
            | Some potential_moves =>
                if is_max then
                  loop_max (fun s a b st => minimax s depth' turn false a b st)
                    game_state beta potential_moves NegInf None alpha st2
                else
                  loop_min (fun s a b st => minimax s depth' turn true a b st)
                    game_state alpha potential_moves PosInf None beta st2
            end
      end
  end.

End Search.

(** The game loop's call [self.minimax(state, self.depth, state["turn"],
    current_time)] with counters [st]. *)
Definition search (max_turns : Z) (alphabeta : bool) (h : heuristic)
    (depth : nat) (expired : Z -> bool) (s : game_state) (st : stats)
    : option result :=
  minimax max_turns alphabeta h (Z.of_nat depth) expired s depth (turn s)
    true NegInf PosInf st.

Definition fresh_stats (depth : nat) : stats :=
  mk_stats 0 0 (repeat 0 (S depth)).

Definition no_deadline : Z -> bool := fun _ => false.

(** ** Algebraic notation ([get_readable_move], [parse_input]) *)

Open Scope string_scope.

(** [column_translation[i]]; any other key raises [KeyError]. *)
Definition column_translation (i : Z) : option ascii :=
  if Z.eqb i 0 then Some "A"%char
  else if Z.eqb i 1 then Some "B"%char
  else if Z.eqb i 2 then Some "C"%char
  else if Z.eqb i 3 then Some "D"%char
  else if Z.eqb i 4 then Some "E"%char
  else None.

(** Decimal digits of a positive number, most significant first; the
    fuel (the number of binary digits) bounds the number of decimal
    digits. *)
Fixpoint digits (fuel : nat) (n : Z) (acc : string) : string :=
  match fuel with
  | O => acc
  | S fuel' =>
      let acc' := String (ascii_of_nat (48 + Z.to_nat (n mod 10))) acc in
      if Z.eqb (n / 10) 0 then acc' else digits fuel' (n / 10) acc'
  end.

(** [str(z)] for a Python [int]. *)
Definition str_of_Z (z : Z) : string :=
  match z with
  | Z0 => "0"
  | Zpos p => digits (Pos.size_nat p) z ""
  | Zneg p => "-" ++ digits (Pos.size_nat p) (Zpos p) ""
  end.

Definition get_readable_move (m : move) : option string :=
  let '((r0, c0), (r1, c1)) := m in
  match column_translation c0, column_translation c1 with
  | Some a, Some b =>
      Some (String a (str_of_Z (5 - r0)) ++ " " ++ String b (str_of_Z (5 - r1)))
  | _, _ => None
  end.

(** [piece_translation[piece[1]]] of [print_valid_moves]. *)
Definition piece_translation (k : kind) : string :=
  match k with
  | Pawn => "Pawn"
  | Knight => "Knight"
  | Bishop => "Bishop"
  | Queen => "Queen"
  | King => "King"
  end.

(** [print_valid_moves(moves, game_state)]: the lines printed, one per
    move, or [None] when a line raises: [IndexError] for a start square
    off the board or empty (the string ['.'] has no [[1]]), [KeyError]
    from [get_readable_move]. *)
Fixpoint print_valid_moves (moves : list move) (s : game_state) : option (list string) :=
  match moves with
  | [] => Some []
  | m :: moves' =>
      match py_cell (board_of s) (fst (fst m)) (snd (fst m)) with
      | Some (Pc _ k) =>
          match get_readable_move m with
          | Some str =>
              option_map (cons (piece_translation k ++ " " ++ str))
                (print_valid_moves moves' s)
          | None => None
          end
      | _ => None
      end
  end.

(** The ASCII characters Python's [str.split()] treats as whitespace. *)
Definition is_space (ch : ascii) : bool :=
  let n := nat_of_ascii ch in
  (Nat.eqb n 32) || ((9 <=? n)%nat && (n <=? 13)%nat) || ((28 <=? n)%nat && (n <=? 31)%nat).

(** [s.split()] *)
Fixpoint split_aux (s cur : string) : list string :=
  match s with
  | EmptyString => if String.eqb cur "" then [] else [cur]
  | String ch rest =>
      if is_space ch then
        if String.eqb cur "" then split_aux rest "" else cur :: split_aux rest ""
      else split_aux rest (cur ++ String ch "")
  end.

Definition py_split (s : string) : list string := split_aux s "".

(** [int(ch)] of a one-character string: [ValueError] unless a digit. *)
Definition int_of_char (ch : ascii) : option Z :=
  let n := nat_of_ascii ch in
  if (48 <=? n)%nat && (n <=? 57)%nat then Some (Z.of_nat n - 48) else None.

(** [ch.upper()] *)
Definition upper (ch : ascii) : ascii :=
  let n := nat_of_ascii ch in
  if (97 <=? n)%nat && (n <=? 122)%nat then ascii_of_nat (n - 32) else ch.

(** [(5 - int(sq[1]), ord(sq[0].upper()) - ord('A'))] *)
Definition parse_square (sq : string) : option square :=
  match String.get 0 sq, String.get 1 sq with
  | Some ch0, Some ch1 =>
      match int_of_char ch1 with
      | Some n => Some (5 - n, Z.of_nat (nat_of_ascii (upper ch0)) - Z.of_nat (nat_of_ascii "A"))
      | None => None
      end
  | _, _ => None
  end.

(** [parse_input]: every exception inside the [try] gives [None]. *)
Definition parse_input (mv : string) : option move :=
  match py_split mv with
  | [start; end_] =>
      match parse_square start, parse_square end_ with
      | Some st, Some en => Some (st, en)
      | _, _ => None
      end
  | _ => None
  end.

(** ** The game loop ([play]) *)

(** [ch.lower()] on an ASCII character. *)
Definition lower (ch : ascii) : ascii :=
  let n := nat_of_ascii ch in
  if (65 <=? n)%nat && (n <=? 90)%nat then ascii_of_nat (n + 32) else ch.

(** [s.lower()] *)
Fixpoint lower_string (s : string) : string :=
  match s with
  | EmptyString => EmptyString
  | String ch rest => String (lower ch) (lower_string rest)
  end.

(** How one pass of the [while] loop of [play] ends for a human player:
    [exit(1)], [continue] after ["Invalid move. Try again."], or the move
    made on [self.current_game_state]. *)
Inductive human_outcome := Exited | Rejected | Played (s : game_state).

(** The human branch of the loop body, [input] being the line read; the
    prints and the trace file are left out. [make_move] mutates the
    current state in place, which is the state it returns. *)
Definition human_turn (max_turns : Z) (input : string) (s : game_state)
    : option human_outcome :=
  if String.eqb (lower_string input) "exit" then Some Exited
  else
    match parse_input input with
    | None => Some Rejected
    | Some m =>
        match is_valid_move m s with
        | None => None
        | Some (false, _) => Some Rejected
        | Some (true, s1) =>
            match apply_move max_turns m s1 with
            | Some s' => Some (Played s')
            | None => None
            end
        end
    end.

(** The [while not self.current_game_state["game_over_reason"]] loop run
    on the moves the passes make, each of them legal ([is_valid_move] is
    what accepts a human's move). A rejected input leaves the state as it
    is, so only the moves made are listed. [None]: a move is not legal,
    or a move is left when the loop has stopped. *)
Fixpoint play_moves (max_turns : Z) (ms : list move) (s : game_state)
    : option game_state :=
  match ms with
  | [] => Some s
  | m :: ms' =>
      if String.eqb (game_over_reason s) "" then
        match is_valid_move m s with
        | Some (true, s1) =>
            match apply_move max_turns m s1 with
            | Some s' => play_moves max_turns ms' s'
            | None => None
            end
        | _ => None
        end
      else None
  end.

Close Scope string_scope.

(** ** Reading of the spec used for comparison *)

(** The material count as the spec words it: the sum, over the pieces of
    one side, of pawn 1, knight 3, bishop 3, queen 9, king 999. *)
Definition spec_piece_value (k : kind) : Z :=
  match k with
  | Pawn => 1
  | Knight => 3
  | Bishop => 3
  | Queen => 9
  | King => 999
  end.

Definition side_material (s : game_state) (c : color) : Z :=
  fold_right Z.add 0
    (map (fun p => match p with
                   | Pc c' k => if color_eqb c' c then spec_piece_value k else 0
                   | Empty => 0
                   end) (concat (board_of s))).

(** The square names of the notation: column [i] is the letter
    [chr(ord('A') + i)], row [r] is the rank digit [5 - r]. *)
Definition square_name (sq : square) : string :=
  String (ascii_of_nat (65 + Z.to_nat (snd sq)))
    (String (ascii_of_nat (48 + Z.to_nat (5 - fst sq))) EmptyString).

Definition board_range : list Z := [0; 1; 2; 3; 4].

Definition all_squares : list square := list_prod board_range board_range.

(** A position after black has taken the white king. *)
Definition white_king_taken : game_state :=
  {| board_of :=
       [[Pc Black King; Pc Black Queen; Pc Black Bishop; Pc Black Knight; Empty];
        [Empty; Empty; Pc Black Pawn; Pc Black Pawn; Empty];
        [Empty; Empty; Empty; Empty; Empty];
        [Empty; Pc White Pawn; Pc White Pawn; Empty; Empty];
        [Empty; Pc White Knight; Pc White Bishop; Empty; Pc Black Queen]];
     turn := Black;
     game_over_reason := "king captured";
     turn_number := 3;
     turns_without_capture := 0;
     turn_no_capture := false |}.

(** The position before that: the black queen on E2 can take the white
    king on E1. *)
Definition queen_next_to_king : game_state :=
  {| board_of :=
       [[Pc Black King; Pc Black Queen; Pc Black Bishop; Pc Black Knight; Empty];
        [Empty; Empty; Pc Black Pawn; Pc Black Pawn; Empty];
        [Empty; Empty; Empty; Empty; Empty];
        [Empty; Pc White Pawn; Pc White Pawn; Empty; Pc Black Queen];
        [Empty; Pc White Knight; Pc White Bishop; Empty; Pc White King]];
     turn := Black;
     game_over_reason := "";
     turn_number := 3;
     turns_without_capture := 0;
     turn_no_capture := false |}.

(** A position where black, to move, has no move: its king is walled in
    by its own pawns and every pawn is blocked. *)
Definition black_walled_in : game_state :=
  {| board_of :=
       [[Pc Black King; Pc Black Pawn; Empty; Empty; Empty];
        [Pc Black Pawn; Pc Black Pawn; Empty; Empty; Empty];
        [Pc Black Pawn; Pc Black Pawn; Empty; Empty; Empty];
        [Pc Black Pawn; Pc Black Pawn; Empty; Empty; Empty];
        [Pc Black Pawn; Pc Black Pawn; Empty; Empty; Pc White King]];
     turn := Black;
     game_over_reason := "";
     turn_number := 4;
     turns_without_capture := 0;
     turn_no_capture := true |}.

(** The board of the data model: 5 rows of 5 cells. *)
Definition board_shape (b : board) : Prop :=
  length b = 5%nat /\ Forall (fun row => length row = 5%nat) b.

(** ** Quantities the proofs track *)

(** The signed material of a square, and of a board: white's pieces
    count for their value, black's against it. *)
Definition cell_score (x : cell) : Z :=
  match x with
  | Pc White k => piece_value k
  | Pc Black k => - piece_value k
  | Empty => 0
  end.

Definition row_score (row : list cell) : Z := fold_right Z.add 0 (map cell_score row).

Definition board_score (b : board) : Z := fold_right Z.add 0 (map row_score b).

(** The board part of [make_move]: the reads of the two squares and the
    three writes. *)
Definition move_board (b : board) (m : move) : option board :=
  let '((sr, sc), (er, ec)) := m in
  match py_cell b sr sc, py_cell b er ec with
  | Some piece, Some _ =>
      match py_set_cell b sr sc Empty with
      | None => None
      | Some b1 =>
          match py_set_cell b1 er ec piece with
          | None => None
          | Some b2 =>
              if cell_eqb piece (Pc White Pawn) && (er =? 0)
              then py_set_cell b2 er ec (Pc White Queen)
              else if cell_eqb piece (Pc Black Pawn) && (er =? 4)
              then py_set_cell b2 er ec (Pc Black Queen)
              else Some b2
          end
      end
  | _, _ => None
  end.

(** [sum(l)] *)
Definition sum_list (l : list Z) : Z := fold_right Z.add 0 l.

(** The counters between two points of a search: [sum(states_visited_per_depth)]
    grows as [total_nodes] does, and [non_leaf_nodes] grows by at most
    as much. *)
Definition counted (st st1 : stats) : Prop :=
  sum_list (states_visited_per_depth st1) - sum_list (states_visited_per_depth st)
    = total_nodes st1 - total_nodes st /\
  non_leaf_nodes st <= non_leaf_nodes st1 /\
  non_leaf_nodes st1 - non_leaf_nodes st <= total_nodes st1 - total_nodes st.

(** ** Runs on concrete inputs *)

Example init_moves :
  run_moves init_board =
  Some [((3,1),(2,1)); ((3,2),(2,2)); ((4,1),(3,3)); ((4,1),(2,0));
        ((4,1),(2,2)); ((4,2),(3,3)); ((4,2),(2,4)); ((4,3),(3,3));
        ((4,3),(2,3)); ((4,3),(1,3)); ((4,3),(3,4)); ((4,4),(3,3));
        ((4,4),(3,4))].
Proof. vm_compute. reflexivity. Qed.

Example init_b4_b3 :
  option_map (fun s => (turn s, turn_number s, py_cell (board_of s) 3 1,
                        py_cell (board_of s) 2 1))
    (apply_move 10 ((3,1),(2,1)) init_board)
  = Some (Black, 1, Some Empty, Some (Pc White Pawn)).
Proof. reflexivity. Qed.

Example material_init : e0 init_board White = Some 0.
Proof. reflexivity. Qed.

Example king_safety_init : king_safety_score init_board White = Some (4 * 2 - 10).
Proof. vm_compute. reflexivity. Qed.

Example search_depth1 :
  option_map (fun '(v, m, st) => (v, m, total_nodes st))
    (search 10 true e0 1 no_deadline init_board (fresh_stats 1))
  = Some (Fin 1, Some ((4,3),(1,3)), 14).
Proof. vm_compute. reflexivity. Qed.

Example search_depth2 :
  option_map (fun '(v, m, st) => (v, m, total_nodes st))
    (search 10 true e0 2 no_deadline init_board (fresh_stats 2))
  = Some (Fin (-1), Some ((3,1),(2,1)), 102)
  /\ option_map (fun '(v, m, st) => (v, m, total_nodes st))
    (search 10 false e0 2 no_deadline init_board (fresh_stats 2))
  = Some (Fin (-1), Some ((3,1),(2,1)), 184).
Proof. split; vm_compute; reflexivity. Qed.

Example readable_b4_b3 : get_readable_move ((4,1),(3,1)) = Some "B1 B2"%string.
Proof. reflexivity. Qed.

Example parse_b2_b3 : parse_input " b2   B3 "%string = Some ((3,1),(2,1)).
Proof. reflexivity. Qed.

Example str_of_Z_ex : str_of_Z 1024 = "1024"%string /\ str_of_Z (-7) = "-7"%string.
Proof. split; reflexivity. Qed.

(** * Proofs *)

(** ** The order on scores *)

Definition clamp (a b x : ext) : ext := emax a (emin b x).

Ltac ext_brute := intros;
  repeat match goal with x : ext |- _ => destruct x end;
  unfold clamp, emax, emin, ele, elt in *; simpl in *;
  repeat (first [ match goal with
                  | |- context [?x <? ?y] => destruct (Z.ltb_spec x y)
                  | H : context [?x <? ?y] |- _ => destruct (Z.ltb_spec x y)
                  end
                | progress simpl in * ]);
  try discriminate; try reflexivity;
  repeat match goal with H : Fin _ = Fin _ |- _ => injection H as H end;
  try (f_equal; lia); try lia.

Lemma clamp_emax a b x y :
  clamp a b (emax x y) = emax (clamp a b x) (clamp a b y).
Proof. ext_brute. Qed.

Lemma clamp_emin a b x y :
  clamp a b (emin x y) = emin (clamp a b x) (clamp a b y).
Proof. ext_brute. Qed.

(** One child of a maximizing node, searched with the window
    [(max(a, m), b)], contributes to the clamped maximum as the exact
    value would. *)
Lemma max_step a b m x y :
  ele m b = true ->
  clamp (emax a m) b x = clamp (emax a m) b y ->
  clamp a b (emax m x) = clamp a b (emax m y).
Proof. ext_brute. Qed.

Lemma min_step a b m x y :
  ele a m = true ->
  clamp a (emin b m) x = clamp a (emin b m) y ->
  clamp a b (emin m x) = clamp a b (emin m y).
Proof. ext_brute. Qed.

(** A cut-off in a maximizing node. *)
Lemma max_cut a b m m0 w :
  ele b (emax a m) = true ->
  clamp a b m = clamp a b m0 ->
  ele m0 w = true ->
  clamp a b m = clamp a b w.
Proof. ext_brute. Qed.

Lemma min_cut a b m m0 w :
  ele (emin b m) a = true ->
  clamp a b m = clamp a b m0 ->
  ele w m0 = true ->
  clamp a b m = clamp a b w.
Proof. ext_brute. Qed.

Lemma ele_emax_l x y : ele x (emax x y) = true.
Proof. ext_brute. Qed.
Lemma ele_emin_l x y : ele (emin x y) x = true.
Proof. ext_brute. Qed.
Lemma ele_trans x y z : ele x y = true -> ele y z = true -> ele x z = true.
Proof. ext_brute. Qed.
Lemma ele_refl x : ele x x = true.
Proof. ext_brute. Qed.
Lemma emax_le_b a m b : ele b (emax a m) = false -> ele m b = true.
Proof. ext_brute. Qed.
Lemma emin_ge_a a m b : ele (emin b m) a = false -> ele a m = true.
Proof. ext_brute. Qed.
Lemma emax_assoc a m x : emax (emax a m) x = emax a (emax m x).
Proof. ext_brute. Qed.
Lemma emin_assoc b m x : emin (emin b m) x = emin b (emin m x).
Proof. ext_brute. Qed.
Lemma clamp_full x : clamp NegInf PosInf x = x.
Proof. ext_brute. Qed.

(** The running maximum as the loop updates it. *)
Lemma max_update m x (best mv : option move) :
  fst (if elt m x then (x, mv) else (m, best)) = emax m x.
Proof. unfold emax; destruct (elt m x); reflexivity. Qed.
Lemma min_update m x (best mv : option move) :
  fst (if elt x m then (x, mv) else (m, best)) = emin m x.
Proof. unfold emin; destruct (elt x m); reflexivity. Qed.

Lemma pair_if_max (m x : ext) (b mv : option move) :
  (if elt m x then (x, mv) else (m, b)) = (emax m x, if elt m x then mv else b).
Proof. unfold emax; destruct (elt m x); reflexivity. Qed.

Lemma pair_if_min (m x : ext) (b mv : option move) :
  (if elt x m then (x, mv) else (m, b)) = (emin m x, if elt x m then mv else b).
Proof. unfold emin; destruct (elt x m); reflexivity. Qed.

(** ** The search counters *)

Lemma set_nth_length {A} (l : list A) n x : length (set_nth l n x) = length l.
Proof.
  revert n; induction l as [|y l IH]; intros [|n]; simpl; auto.
Qed.

Lemma py_nth_some {A} (l : list A) i :
  py_nth l i <> None <-> - Z.of_nat (length l) <= i < Z.of_nat (length l).
Proof.
  unfold py_nth.
  destruct (Z.ltb_spec i 0); [destruct (Z.leb_spec (- Z.of_nat (length l)) i)|].
  - rewrite nth_error_Some. split; lia.
  - split; [congruence | lia].
  - rewrite nth_error_Some. split; lia.
Qed.

Lemma py_incr_length l i l' :
  py_incr l i = Some l' -> length l' = length l.
Proof.
  unfold py_incr, py_set.
  destruct (py_nth l i); [|discriminate].
  destruct (_ && _); [|discriminate].
  intros H; injection H as <-. apply set_nth_length.
Qed.

Lemma py_incr_some l1 l2 i l1' :
  length l1 = length l2 -> py_incr l1 i = Some l1' ->
  exists l2', py_incr l2 i = Some l2'.
Proof.
  unfold py_incr, py_set. intros Hlen.
  destruct (py_nth l1 i) eqn:E1; [|discriminate].
  assert (Hr : - Z.of_nat (length l1) <= i < Z.of_nat (length l1))
    by (apply py_nth_some; congruence).
  assert (Hn : py_nth l2 i <> None) by (apply py_nth_some; lia).
  destruct (py_nth l2 i); [|congruence].
  rewrite <- Hlen.
  destruct (Z.leb_spec (- Z.of_nat (length l1)) i); [|lia].
  destruct (Z.ltb_spec i (Z.of_nat (length l1))); [|lia].
  simpl. eauto.
Qed.

Definition grows (st st1 : stats) : Prop :=
  total_nodes st <= total_nodes st1 /\
  length (states_visited_per_depth st1) = length (states_visited_per_depth st).

Lemma grows_trans st1 st2 st3 : grows st1 st2 -> grows st2 st3 -> grows st1 st3.
Proof. unfold grows; intros [] []; split; congruence || lia. Qed.

Lemma grows_refl st : grows st st.
Proof. split; lia. Qed.

Section Counters.

Variables (max_turns : Z) (alphabeta : bool).

Lemma loop_max_grows child gs beta ms :
  (forall ps a b st r, child ps a b st = Some r -> grows st (snd r)) ->
  forall mx best alpha st r,
  loop_max max_turns alphabeta child gs beta ms mx best alpha st = Some r ->
  grows st (snd r).
Proof.
  intros Hc. induction ms as [|m ms IH]; intros mx best alpha st r; simpl.
  - intros H; injection H as <-. apply grows_refl.
  - destruct (apply_move max_turns m gs) as [ps|]; [|discriminate].
    destruct (child ps alpha beta st) as [[[sv mv] st']|] eqn:Ec; [|discriminate].
    apply Hc in Ec. simpl in Ec.
    rewrite pair_if_max.
    destruct alphabeta; [destruct (ele beta (emax alpha sv))|];
      intros H; [injection H as <-; exact Ec| |];
      eapply grows_trans; [exact Ec| | exact Ec|]; eapply IH; exact H.
Qed.

Lemma loop_min_grows child gs alpha ms :
  (forall ps a b st r, child ps a b st = Some r -> grows st (snd r)) ->
  forall mn best beta st r,
  loop_min max_turns alphabeta child gs alpha ms mn best beta st = Some r ->
  grows st (snd r).
Proof.
  intros Hc. induction ms as [|m ms IH]; intros mn best beta st r; simpl.
  - intros H; injection H as <-. apply grows_refl.
  - destruct (apply_move max_turns m gs) as [ps|]; [|discriminate].
    destruct (child ps alpha beta st) as [[[sv mv] st']|] eqn:Ec; [|discriminate].
    apply Hc in Ec. simpl in Ec.
    rewrite pair_if_min.
    destruct alphabeta; [destruct (ele (emin beta sv) alpha)|];
      intros H; [injection H as <-; exact Ec| |];
      eapply grows_trans; [exact Ec| | exact Ec|]; eapply IH; exact H.
Qed.

Lemma minimax_grows h self_depth expired depth :
  forall gs t is_max alpha beta st r,
  minimax max_turns alphabeta h self_depth expired gs depth t is_max alpha beta st = Some r ->
  grows st (snd r).
Proof.
  induction depth as [|d IH]; intros gs t is_max alpha beta st r; simpl.
  - destruct (py_incr _ _) as [pd|] eqn:Ei; [|discriminate].
    apply py_incr_length in Ei.
    destruct (h gs t); [|discriminate].
    intros H; injection H as <-. split; simpl; lia.
  - destruct (py_incr _ _) as [pd|] eqn:Ei; [|discriminate].
    apply py_incr_length in Ei.
    assert (G : grows st (mk_stats (total_nodes st + 1) (non_leaf_nodes st) pd))
      by (split; simpl; lia).
    destruct (_ || _).
    + destruct (h gs t); [|discriminate].
      intros H; injection H as <-. exact G.
    + destruct (run_moves gs) as [ms|]; [|discriminate].
      assert (G2 : grows st (mk_stats (total_nodes st + 1) (non_leaf_nodes st + 1) pd))
        by (split; simpl; lia).
      destruct is_max; intros H; eapply grows_trans; try exact G2.
      * eapply loop_max_grows; [|exact H].
        intros ps a b st' r' Hc; exact (IH _ _ _ _ _ _ _ Hc).
      * eapply loop_min_grows; [|exact H].
        intros ps a b st' r' Hc; exact (IH _ _ _ _ _ _ _ Hc).
Qed.

End Counters.

(** ** Alpha-beta against plain minimax *)

Section AlphaBeta.

Variable max_turns : Z.

Lemma loop_max_ge ab child gs beta ms :
  forall mx best alpha st v mv st1,
  loop_max max_turns ab child gs beta ms mx best alpha st = Some (v, mv, st1) ->
  ele mx v = true.
Proof.
  induction ms as [|m ms IH]; intros mx best alpha st v mv st1; simpl.
  - intros H; injection H as <- _ _. apply ele_refl.
  - destruct (apply_move max_turns m gs) as [ps|]; [|discriminate].
    destruct (child ps alpha beta st) as [[[sv smv] st']|]; [|discriminate].
    rewrite pair_if_max.
    destruct ab; [destruct (ele beta (emax alpha sv))|]; intros H;
      [injection H as <- _ _; apply ele_emax_l| |];
      eapply ele_trans; [apply (ele_emax_l mx sv)| eapply IH; exact H
                        |apply (ele_emax_l mx sv)| eapply IH; exact H].
Qed.

Lemma loop_min_le ab child gs alpha ms :
  forall mn best beta st v mv st1,
  loop_min max_turns ab child gs alpha ms mn best beta st = Some (v, mv, st1) ->
  ele v mn = true.
Proof.
  induction ms as [|m ms IH]; intros mn best beta st v mv st1; simpl.
  - intros H; injection H as <- _ _. apply ele_refl.
  - destruct (apply_move max_turns m gs) as [ps|]; [|discriminate].
    destruct (child ps alpha beta st) as [[[sv smv] st']|]; [|discriminate].
    rewrite pair_if_min.
    destruct ab; [destruct (ele (emin beta sv) alpha)|]; intros H;
      [injection H as <- _ _; apply ele_emin_l| |];
      eapply ele_trans; [eapply IH; exact H | apply (ele_emin_l mn sv)
                        |eapply IH; exact H | apply (ele_emin_l mn sv)].
Qed.

(** [childA] searched with any window [(x, y)] agrees, after clamping to
    that window, with [childP] searched without pruning, and visits no
    more nodes. *)
Definition refines (childP childA : game_state -> ext -> ext -> stats -> option result)
    : Prop :=
  forall ps x y x0 y0 st st' v m st1,
    length (states_visited_per_depth st) = length (states_visited_per_depth st') ->
    childP ps x0 y0 st = Some (v, m, st1) ->
    exists v' m' st2, childA ps x y st' = Some (v', m', st2) /\
      clamp x y v' = clamp x y v /\
      total_nodes st2 - total_nodes st' <= total_nodes st1 - total_nodes st /\
      length (states_visited_per_depth st2) = length (states_visited_per_depth st').

Lemma loop_max_refines childP childA gs a b ms :
  refines childP childA ->
  (forall ps x y st r, childP ps x y st = Some r -> grows st (snd r)) ->
  forall mP bestP alphaP betaP mA bestA alpha stP stA v mv st1,
  length (states_visited_per_depth stP) = length (states_visited_per_depth stA) ->
  alpha = emax a mA ->
  ele mA b = true ->
  clamp a b mA = clamp a b mP ->
  loop_max max_turns false childP gs betaP ms mP bestP alphaP stP = Some (v, mv, st1) ->
  exists v' mv' st2,
    loop_max max_turns true childA gs b ms mA bestA alpha stA = Some (v', mv', st2) /\
    clamp a b v' = clamp a b v /\
    total_nodes st2 - total_nodes stA <= total_nodes st1 - total_nodes stP /\
    length (states_visited_per_depth st2) = length (states_visited_per_depth stA).
Proof.
  intros Href Hgrow.
  induction ms as [|m ms IH];
    intros mP bestP alphaP betaP mA bestA alpha stP stA v mv st1 Hlen Ha Hb Hc; simpl.
  - intros H; injection H as <- <- <-. do 3 eexists. split; [reflexivity|].
    split; [congruence|]. split; [lia|reflexivity].
  - destruct (apply_move max_turns m gs) as [ps|]; [|discriminate].
    destruct (childP ps alphaP betaP stP) as [[[sv smv] stP']|] eqn:EP; [|discriminate].
    destruct (Href ps alpha b alphaP betaP stP stA sv smv stP' Hlen EP)
      as (sv' & smv' & stA' & EA & Hcl & Hn & HlA).
    rewrite EA. rewrite !pair_if_max. cbn [fst snd].
    assert (Hgp := Hgrow _ _ _ _ _ EP). destruct Hgp as [HgP HlP]; simpl in HgP, HlP.
    assert (Hstep : clamp a b (emax mA sv') = clamp a b (emax mP sv)).
    { rewrite (max_step a b mA sv' sv Hb) by (subst alpha; exact Hcl).
      rewrite !clamp_emax, Hc. reflexivity. }
    intros H.
    destruct (ele b (emax alpha sv')) eqn:Ecut.
    + do 3 eexists. split; [reflexivity|].
      assert (Hrest := Hgrow). 
      pose proof (loop_max_ge false childP gs betaP ms _ _ _ _ _ _ _ H) as Hge.
      pose proof (loop_max_grows max_turns false childP gs betaP ms Hgrow _ _ _ _ _ H)
        as [Hg1 Hg2]; simpl in Hg1, Hg2.
      split.
      * eapply max_cut; [| exact Hstep | exact Hge].
        rewrite <- emax_assoc, <- Ha. exact Ecut.
      * split; [lia | congruence].
    + assert (HlenP : length (states_visited_per_depth stP') =
                      length (states_visited_per_depth stA')) by congruence.
      destruct (IH _ _ _ _ _ (if elt mA sv' then Some m else bestA) _ _ _ _ _ _
                  HlenP eq_refl (emax_le_b a _ b ltac:(rewrite <- emax_assoc, <- Ha; exact Ecut))
                  Hstep H)
        as (v' & mv' & st2 & E2 & Hv & Hn2 & Hl2).
      rewrite Ha, emax_assoc, E2.
      do 3 eexists. split; [reflexivity|].
      split; [exact Hv|]. split; [lia | congruence].
Qed.

Lemma loop_min_refines childP childA gs a b ms :
  refines childP childA ->
  (forall ps x y st r, childP ps x y st = Some r -> grows st (snd r)) ->
  forall mP bestP alphaP betaP mA bestA beta stP stA v mv st1,
  length (states_visited_per_depth stP) = length (states_visited_per_depth stA) ->
  beta = emin b mA ->
  ele a mA = true ->
  clamp a b mA = clamp a b mP ->
  loop_min max_turns false childP gs alphaP ms mP bestP betaP stP = Some (v, mv, st1) ->
  exists v' mv' st2,
    loop_min max_turns true childA gs a ms mA bestA beta stA = Some (v', mv', st2) /\
    clamp a b v' = clamp a b v /\
    total_nodes st2 - total_nodes stA <= total_nodes st1 - total_nodes stP /\
    length (states_visited_per_depth st2) = length (states_visited_per_depth stA).
Proof.
  intros Href Hgrow.
  induction ms as [|m ms IH];
    intros mP bestP alphaP betaP mA bestA beta stP stA v mv st1 Hlen Hb Ha Hc; simpl.
  - intros H; injection H as <- <- <-. do 3 eexists. split; [reflexivity|].
    split; [congruence|]. split; [lia|reflexivity].
  - destruct (apply_move max_turns m gs) as [ps|]; [|discriminate].
    destruct (childP ps alphaP betaP stP) as [[[sv smv] stP']|] eqn:EP; [|discriminate].
    destruct (Href ps a beta alphaP betaP stP stA sv smv stP' Hlen EP)
      as (sv' & smv' & stA' & EA & Hcl & Hn & HlA).
    rewrite EA. rewrite !pair_if_min. cbn [fst snd].
    assert (Hgp := Hgrow _ _ _ _ _ EP). destruct Hgp as [HgP HlP]; simpl in HgP, HlP.
    assert (Hstep : clamp a b (emin mA sv') = clamp a b (emin mP sv)).
    { rewrite (min_step a b mA sv' sv Ha) by (subst beta; exact Hcl).
      rewrite !clamp_emin, Hc. reflexivity. }
    intros H.
    destruct (ele (emin beta sv') a) eqn:Ecut.
    + do 3 eexists. split; [reflexivity|].
      pose proof (loop_min_le false childP gs alphaP ms _ _ _ _ _ _ _ H) as Hle.
      pose proof (loop_min_grows max_turns false childP gs alphaP ms Hgrow _ _ _ _ _ H)
        as [Hg1 Hg2]; simpl in Hg1, Hg2.
      split.
      * eapply min_cut; [| exact Hstep | exact Hle].
        rewrite <- emin_assoc, <- Hb. exact Ecut.
      * split; [lia | congruence].
    + assert (HlenP : length (states_visited_per_depth stP') =
                      length (states_visited_per_depth stA')) by congruence.
      destruct (IH _ _ _ _ _ (if elt sv' mA then Some m else bestA) _ _ _ _ _ _
                  HlenP eq_refl (emin_ge_a a _ b ltac:(rewrite <- emin_assoc, <- Hb; exact Ecut))
                  Hstep H)
        as (v' & mv' & st2 & E2 & Hv & Hn2 & Hl2).
      rewrite Hb, emin_assoc, E2.
      do 3 eexists. split; [reflexivity|].
      split; [exact Hv|]. split; [lia | congruence].
Qed.

Lemma emax_negInf a : emax a NegInf = a.
Proof. ext_brute. Qed.
Lemma emin_posInf b : emin b PosInf = b.
Proof. ext_brute. Qed.
Lemma ele_negInf b : ele NegInf b = true.
Proof. ext_brute. Qed.
Lemma ele_posInf a : ele a PosInf = true.
Proof. ext_brute. Qed.

Variables (h : heuristic) (self_depth : Z).

Lemma minimax_refines depth t is_max :
  refines
    (fun gs a b st => minimax max_turns false h self_depth no_deadline gs depth t is_max a b st)
    (fun gs a b st => minimax max_turns true h self_depth no_deadline gs depth t is_max a b st).
Proof.
  revert is_max.
  induction depth as [|d IH]; intros is_max ps x y x0 y0 st st' v m st1 Hlen; simpl.
  - destruct (py_incr (states_visited_per_depth st) _) as [pd|] eqn:Ei; [|discriminate].
    destruct (py_incr_some _ _ _ _ Hlen Ei) as [pd' Ei']. rewrite Ei'.
    apply py_incr_length in Ei, Ei'.
    destruct (h ps t); [|discriminate].
    intros H; injection H as <- <- <-. do 3 eexists. split; [reflexivity|].
    simpl. split; [reflexivity|]. split; [lia|congruence].
  - destruct (py_incr (states_visited_per_depth st) _) as [pd|] eqn:Ei; [|discriminate].
    destruct (py_incr_some _ _ _ _ Hlen Ei) as [pd' Ei']. rewrite Ei'.
    apply py_incr_length in Ei, Ei'.
    unfold no_deadline. rewrite !orb_false_r.
    destruct (negb _).
    + destruct (h ps t); [|discriminate].
      intros H; injection H as <- <- <-. do 3 eexists. split; [reflexivity|].
      simpl. split; [reflexivity|]. split; [lia|congruence].
    + destruct (run_moves ps) as [ms|]; [|discriminate].
      assert (Hl : length (states_visited_per_depth
                             (mk_stats (total_nodes st + 1) (non_leaf_nodes st + 1) pd)) =
                   length (states_visited_per_depth
                             (mk_stats (total_nodes st' + 1) (non_leaf_nodes st' + 1) pd')))
        by (simpl; congruence).
      destruct is_max; intros H.
      * destruct (loop_max_refines _ _ ps x y ms (IH false)
                    (fun ps a b st r Hc => minimax_grows max_turns false h self_depth
                                             no_deadline d ps t false a b st r Hc)
                    _ _ _ _ NegInf None x _ _ _ _ _ Hl (eq_sym (emax_negInf x))
                    (ele_negInf y) eq_refl H)
          as (v' & mv' & st2 & E & Hv & Hn & Hl2).
        exists v', mv', st2. split; [exact E|].
        simpl in Hn, Hl2. split; [exact Hv|]. split; [lia|congruence].
      * destruct (loop_min_refines _ _ ps x y ms (IH true)
                    (fun ps a b st r Hc => minimax_grows max_turns false h self_depth
                                             no_deadline d ps t true a b st r Hc)
                    _ _ _ _ PosInf None y _ _ _ _ _ Hl (eq_sym (emin_posInf y))
                    (ele_posInf x) eq_refl H)
          as (v' & mv' & st2 & E & Hv & Hn & Hl2).
        exists v', mv', st2. split; [exact E|].
        simpl in Hn, Hl2. split; [exact Hv|]. split; [lia|congruence].
Qed.

End AlphaBeta.

(** ** C1 *)

(** C1: run to the same depth with the same evaluator, with no deadline,
    on the same game state and counters, the search with alpha-beta
    enabled returns the same score as the search with alpha-beta disabled,
    and the number of nodes it visits (the increase of [total_nodes]) is
    at most the number the plain search visits. *)
Theorem alphabeta_same_score max_turns h depth s st v m st1 :
  search max_turns false h depth no_deadline s st = Some (v, m, st1) ->
  exists m' st2,
    search max_turns true h depth no_deadline s st = Some (v, m', st2) /\
    total_nodes st2 - total_nodes st <= total_nodes st1 - total_nodes st.
Proof.
  unfold search. intros H.
  destruct (minimax_refines max_turns h (Z.of_nat depth) depth (turn s) true
              s NegInf PosInf NegInf PosInf st st v m st1 eq_refl H)
    as (v' & m' & st2 & E & Hv & Hn & _).
  rewrite !clamp_full in Hv. subst v'.
  exists m', st2. split; [exact E | exact Hn].
Qed.

Lemma alphabeta_same_score_witness :
  search 10 false e0 2 no_deadline init_board (fresh_stats 2)
    = Some (Fin (-1), Some ((3,1),(2,1)),
            mk_stats 184 14 [1; 13; 170]) /\
  exists m' st2,
    search 10 true e0 2 no_deadline init_board (fresh_stats 2) = Some (Fin (-1), m', st2) /\
    total_nodes st2 - total_nodes (fresh_stats 2) <= 184 - total_nodes (fresh_stats 2).
Proof.
  assert (H : search 10 false e0 2 no_deadline init_board (fresh_stats 2)
              = Some (Fin (-1), Some ((3,1),(2,1)), mk_stats 184 14 [1; 13; 170]))
    by (vm_compute; reflexivity).
  split; [exact H|].
  exact (alphabeta_same_score 10 e0 2 init_board (fresh_stats 2) _ _ _ H).
Defined.

(** ** C6 *)

Definition row_material (row : list cell) (c : color) : Z :=
  fold_right Z.add 0
    (map (fun p => match p with
                   | Pc c' k => if color_eqb c' c then spec_piece_value k else 0
                   | Empty => 0
                   end) row).

Lemma material_row row w b :
  fold_left
    (fun '(w, b) piece =>
       match piece with
       | Pc White k => (w + piece_value k, b)
       | Pc Black k => (w, b + piece_value k)
       | Empty => (w, b)
       end) row (w, b)
  = (w + row_material row White, b + row_material row Black).
Proof.
  revert w b. induction row as [|p row IH]; intros w b; simpl.
  - unfold row_material; simpl. f_equal; lia.
  - destruct p as [|[] k]; rewrite IH; unfold row_material;
      cbn [map fold_right color_eqb]; f_equal; try destruct k;
      cbn [spec_piece_value piece_value]; lia.
Qed.

Lemma material_rows rows w b :
  fold_left
    (fun sc row =>
       fold_left
         (fun '(w, b) piece =>
            match piece with
            | Pc White k => (w + piece_value k, b)
            | Pc Black k => (w, b + piece_value k)
            | Empty => (w, b)
            end) row sc) rows (w, b)
  = (w + side_material (mk_state rows White "" 0 0 false) White,
     b + side_material (mk_state rows White "" 0 0 false) Black).
Proof.
  revert w b. induction rows as [|row rows IH]; intros w b; simpl.
  - unfold side_material; simpl. f_equal; lia.
  - rewrite material_row, IH. unfold side_material; simpl.
    rewrite !map_app, !fold_right_app.
    assert (Hf : forall l x, fold_right Z.add x l = x + fold_right Z.add 0 l).
    { induction l as [|y l IHl]; intros x; simpl; [lia|]. rewrite IHl; lia. }
    rewrite (Hf _ (fold_right Z.add 0 (map _ (concat rows)))).
    rewrite (Hf (map _ row) (fold_right Z.add 0 (map _ (concat rows)))).
    unfold row_material. f_equal; lia.
Qed.

(** C6: the material evaluator [e0] does not depend on the perspective
    it is given, and it is the sum of white's piece values minus the sum
    of black's (pawn 1, knight 3, bishop 3, queen 9, king 999), whichever
    side asks. *)
Theorem e0_ignores_perspective s p1 p2 :
  e0 s p1 = e0 s p2 /\
  e0 s p1 = Some (side_material s White - side_material s Black).
Proof.
  split; [reflexivity|].
  unfold e0, material_score. rewrite material_rows.
  unfold side_material. simpl. f_equal.
Qed.

(** ** C8 *)

Lemma move_eqb_eq m m' : move_eqb m m' = true -> m = m'.
Proof.
  destruct m as [[a b] [c d]], m' as [[a' b'] [c' d']]; simpl.
  rewrite !andb_true_iff, !Z.eqb_eq. intros [[[-> ->] ->] ->]. reflexivity.
Qed.

Lemma in_board_range r : 0 <= r <= 4 -> In r board_range.
Proof.
  intros H. assert (E : r = 0 \/ r = 1 \/ r = 2 \/ r = 3 \/ r = 4) by lia.
  destruct E as [ -> | [ -> | [ -> | [ -> | -> ]]]]; simpl; tauto.
Qed.

Definition roundtrip_check (m : move) : bool :=
  match get_readable_move m with
  | Some str =>
      String.eqb str (square_name (fst m) ++ " " ++ square_name (snd m))%string &&
      match parse_input str with
      | Some m' => move_eqb m' m
      | None => false
      end
  | None => false
  end.

Lemma roundtrip_all :
  forallb roundtrip_check (list_prod all_squares all_squares) = true.
Proof. vm_compute. reflexivity. Qed.

(** C8: every move between two squares of the board is written by
    [get_readable_move] as "<letter><rank> <letter><rank>", column
    [0..4] as [A..E] and row [0..4] as rank [5..1], and [parse_input]
    reads that text back to the same move. *)
Theorem readable_move_roundtrip r0 c0 r1 c1 :
  0 <= r0 <= 4 -> 0 <= c0 <= 4 -> 0 <= r1 <= 4 -> 0 <= c1 <= 4 ->
  let m := ((r0, c0), (r1, c1)) in
  exists str,
    get_readable_move m = Some str /\
    str = (square_name (r0, c0) ++ " " ++ square_name (r1, c1))%string /\
    parse_input str = Some m.
Proof.
  intros H0 H1 H2 H3 m.
  assert (Hin : In m (list_prod all_squares all_squares))
    by (apply in_prod; apply in_prod; apply in_board_range; assumption).
  pose proof (proj1 (forallb_forall _ _) roundtrip_all m Hin) as Hc.
  unfold roundtrip_check in Hc.
  destruct (get_readable_move m) as [str|]; [|discriminate].
  apply andb_true_iff in Hc as [Hs Hp].
  apply String.eqb_eq in Hs.
  destruct (parse_input str) as [m'|] eqn:Ep; [|discriminate].
  apply move_eqb_eq in Hp. subst m'.
  exists str. split; [reflexivity|]. split; [exact Hs|exact Ep].
Qed.

Lemma readable_move_roundtrip_witness :
  (0 <= 3 <= 4 /\ 0 <= 1 <= 4 /\ 0 <= 2 <= 4 /\ 0 <= 1 <= 4) /\
  exists str,
    get_readable_move ((3, 1), (2, 1)) = Some str /\
    str = (square_name (3, 1) ++ " " ++ square_name (2, 1))%string /\
    parse_input str = Some ((3, 1), (2, 1)).
Proof.
  split; [lia|].
  exact (readable_move_roundtrip 3 1 2 1 ltac:(lia) ltac:(lia) ltac:(lia) ltac:(lia)).
Defined.

(** ** C9 *)

Lemma find_king_row_none row t (r : Z) (kc : option square) c :
  ~ In (Pc t King) row ->
  fst (fold_left
         (fun '(kc', c) piece =>
            (if cell_eqb piece (Pc t King) then Some (r, c) else kc', c + 1))
         row (kc, c)) = kc.
Proof.
  revert c. induction row as [|p row IH]; intros c Hn; simpl; [reflexivity|].
  assert (Hp : cell_eqb p (Pc t King) = false).
  { destruct p as [|c' k]; [reflexivity|].
    destruct (cell_eqb (Pc c' k) (Pc t King)) eqn:E; [|reflexivity].
    exfalso. apply Hn. left. destruct c', t, k; simpl in E; try discriminate; reflexivity. }
  rewrite Hp. apply IH. intros Hi; apply Hn; right; exact Hi.
Qed.

Lemma find_king_none b t :
  ~ In (Pc t King) (concat b) -> find_king b t = None.
Proof.
  unfold find_king.
  enough (G : forall kc r, ~ In (Pc t King) (concat b) ->
            fst (fold_left
                   (fun '(kc, r) row =>
                      (fst (fold_left
                              (fun '(kc', c) piece =>
                                 (if cell_eqb piece (Pc t King) then Some (r, c) else kc', c + 1))
                              row (kc, 0)), r + 1)) b (kc, r)) = kc)
    by (intros H; apply (G None 0 H)).
  induction b as [|row b IH]; intros kc r Hn; simpl; [reflexivity|].
  rewrite IH by (intros Hi; apply Hn; simpl; apply in_or_app; right; exact Hi).
  apply (find_king_row_none row t r kc 0).
  intros Hi; apply Hn; simpl; apply in_or_app; left; exact Hi.
Qed.

(** C9: when the board holds no king of the perspective's colour,
    [king_safety_score] returns -999. *)
Theorem king_safety_without_king s t :
  ~ In (Pc t King) (concat (board_of s)) ->
  king_safety_score s t = Some (-999).
Proof.
  intros Hn. unfold king_safety_score. rewrite find_king_none by exact Hn.
  reflexivity.
Qed.

Lemma king_safety_without_king_witness :
  ~ In (Pc White King) (concat (board_of white_king_taken)) /\
  king_safety_score white_king_taken White = Some (-999).
Proof.
  assert (Hn : ~ In (Pc White King) (concat (board_of white_king_taken))).
  { simpl. intros H. repeat (destruct H as [H|H]; [discriminate|]). exact H. }
  split; [exact Hn|].
  exact (king_safety_without_king white_king_taken White Hn).
Defined.

(** ** C2 *)

(** C2 fails: a maximizing search of depth 1 from a position where the
    side to move has no move returns minus infinity, not the evaluation
    of the position. *)
Lemma no_moves_score_counterexample :
  run_moves black_walled_in = Some [] /\
  game_over_reason black_walled_in = ""%string /\
  e0 black_walled_in Black = Some (-9) /\
  exists st,
    search 10 true e0 1 no_deadline black_walled_in (fresh_stats 1)
      = Some (NegInf, None, st) /\
    NegInf <> Fin (-9).
Proof.
  split; [vm_compute; reflexivity|].
  split; [reflexivity|].
  split; [vm_compute; reflexivity|].
  eexists. split; [vm_compute; reflexivity| discriminate].
Qed.

(** C2 (as the code does it): a call that is not a leaf (depth above
    zero, game not over, deadline not reached) on a state whose side to
    move has no move returns no move and the initial running score:
    minus infinity when maximizing, plus infinity when minimizing; the
    evaluator is not called. *)
Theorem no_moves_search_result max_turns ab h self_depth expired s d t is_max
    alpha beta st :
  run_moves s = Some [] ->
  game_over_reason s = ""%string ->
  expired (total_nodes st + 1) = false ->
  py_incr (states_visited_per_depth st) (self_depth - Z.of_nat (S d)) <> None ->
  exists st',
    minimax max_turns ab h self_depth expired s (S d) t is_max alpha beta st
    = Some (if is_max then NegInf else PosInf, None, st').
Proof.
  intros Hm Hr He Hi. simpl.
  destruct (py_incr _ _) as [pd|]; [|congruence].
  rewrite Hr, He, Hm. simpl.
  destruct is_max; eexists; reflexivity.
Qed.

Lemma no_moves_search_result_witness :
  (run_moves black_walled_in = Some [] /\
   game_over_reason black_walled_in = ""%string /\
   no_deadline (total_nodes (fresh_stats 1) + 1) = false /\
   py_incr (states_visited_per_depth (fresh_stats 1)) (1 - Z.of_nat 1) <> None) /\
  exists st',
    minimax 10 true e0 1 no_deadline black_walled_in 1 Black true NegInf PosInf
      (fresh_stats 1) = Some (NegInf, None, st').
Proof.
  assert (H1 : run_moves black_walled_in = Some []) by (vm_compute; reflexivity).
  assert (H2 : game_over_reason black_walled_in = ""%string) by reflexivity.
  assert (H3 : no_deadline (total_nodes (fresh_stats 1) + 1) = false) by reflexivity.
  assert (H4 : py_incr (states_visited_per_depth (fresh_stats 1)) (1 - Z.of_nat 1) <> None)
    by (vm_compute; discriminate).
  split; [repeat split; assumption|].
  exact (no_moves_search_result 10 true e0 1 no_deadline black_walled_in 0 Black true
           NegInf PosInf (fresh_stats 1) H1 H2 H3 H4).
Defined.

(** ** Applying a move: the counters and the end of the game *)

Section MoveFacts.

Variables (max_turns : Z) (s s' : game_state) (sr sc er ec : Z) (piece end_piece : cell).
Hypothesis Hpiece : py_cell (board_of s) sr sc = Some piece.
Hypothesis Hend : py_cell (board_of s) er ec = Some end_piece.
Hypothesis Happly : apply_move max_turns ((sr, sc), (er, ec)) s = Some s'.

(** The effect of [make_move] on the counters and on the end-of-game
    fields. *)
Lemma make_move_fields :
  let twc :=
    if is_color piece White then
      if cell_eqb end_piece Empty then turns_without_capture s else 0
    else if is_color piece Black then
      if negb (cell_eqb end_piece Empty) then 0
      else if turn_no_capture s then turns_without_capture s + 1
      else turns_without_capture s
    else turns_without_capture s in
  let tnc :=
    if is_color piece White then cell_eqb end_piece Empty
    else if is_color piece Black then
      if negb (cell_eqb end_piece Empty) then false else turn_no_capture s
    else turn_no_capture s in
  let terminal :=
    is_king end_piece || ((turn_number s =? max_turns) && is_color piece Black)
    || (twc =? 10) in
  turns_without_capture s' = twc /\
  turn_no_capture s' = tnc /\
  game_over_reason s' =
    (if is_king end_piece then reason_king_captured
     else if (turn_number s =? max_turns) && is_color piece Black then reason_max_turns
     else if twc =? 10 then reason_no_captures
     else game_over_reason s) /\
  turn s' = (if terminal then turn s
             else match turn s with White => Black | Black => White end) /\
  turn_number s' = (if terminal then turn_number s
                    else if is_color piece Black then turn_number s + 1
                    else turn_number s).
Proof.
  cbv zeta.
  unfold apply_move, make_move in Happly.
  unfold bind, read_cell, write_cell, modify, get, ret in Happly.
  rewrite Hpiece, Hend in Happly.
  repeat (first
    [ match type of Happly with
      | context [py_set_cell ?b ?r ?c ?x] =>
          destruct (py_set_cell b r c x); [|discriminate]
      end
    | match type of Happly with
      | context [if ?c then _ else _] => destruct c eqn:?
      end ]; cbn [board_of turn game_over_reason turn_number turns_without_capture
                  turn_no_capture set_board set_turn set_reason set_turn_number
                  set_turns_without_capture set_turn_no_capture] in Happly).
  all: injection Happly as <-; cbn [board_of turn game_over_reason turn_number
         turns_without_capture turn_no_capture set_board set_turn set_reason
         set_turn_number set_turns_without_capture set_turn_no_capture].
  all: destruct piece as [|[] []]; destruct end_piece as [|[] []];
       cbn [is_color same_color is_king cell_eqb color_eqb kind_eqb negb andb orb] in *;
       try discriminate.
  all: repeat split; try reflexivity.
  all: repeat match goal with
         | H : ?x = true |- context [?x] => rewrite H
         | H : ?x = false |- context [?x] => rewrite H
         end; cbn [andb orb negb]; try reflexivity; try congruence.
Qed.

End MoveFacts.

(** ** C3 *)

(** C3 fails: after white's queen takes a pawn, black answers with a
    pawn step that takes nothing, and the counter of turns without
    capture stays at 0 instead of being increased. *)
Lemma no_capture_counter_counterexample :
  exists s1 s2,
    apply_move 10 ((4,3),(1,3)) init_board = Some s1 /\
    turn s1 = Black /\
    is_valid_move ((1,2),(2,2)) s1 = Some (true, s1) /\
    py_cell (board_of s1) 2 2 = Some Empty /\
    apply_move 10 ((1,2),(2,2)) s1 = Some s2 /\
    turns_without_capture s1 = 0 /\
    turns_without_capture s2 = 0.
Proof.
  do 2 eexists. split; [vm_compute; reflexivity|].
  split; [reflexivity|]. split; [vm_compute; reflexivity|].
  split; [reflexivity|]. split; [vm_compute; reflexivity|].
  split; reflexivity.
Qed.

(** C3 (as the code does it): a move that takes a piece resets the
    counter to 0 and clears [turn_no_capture]; a white move that takes
    nothing leaves the counter and sets [turn_no_capture]; a black move
    that takes nothing adds one to the counter exactly when
    [turn_no_capture] is set (so the counter counts full turns in which
    neither side took a piece); and when the counter is 10 after a move
    that took no king and did not end the game by the turn limit, the
    game ends with reason "no captures". *)
Theorem no_capture_counter max_turns s s' sr sc er ec piece end_piece :
  py_cell (board_of s) sr sc = Some piece ->
  py_cell (board_of s) er ec = Some end_piece ->
  apply_move max_turns ((sr, sc), (er, ec)) s = Some s' ->
  (piece <> Empty -> end_piece <> Empty ->
   turns_without_capture s' = 0 /\ turn_no_capture s' = false) /\
  (is_color piece White = true -> end_piece = Empty ->
   turns_without_capture s' = turns_without_capture s /\ turn_no_capture s' = true) /\
  (is_color piece Black = true -> end_piece = Empty ->
   turns_without_capture s' =
     (if turn_no_capture s then turns_without_capture s + 1
      else turns_without_capture s)) /\
  (turns_without_capture s' = 10 -> is_king end_piece = false ->
   (turn_number s =? max_turns) && is_color piece Black = false ->
   game_over_reason s' = reason_no_captures).
Proof.
  intros Hp He Ha.
  destruct (make_move_fields max_turns s s' sr sc er ec piece end_piece Hp He Ha)
    as (Htw & Htnc & Hr & _).
  rewrite Hr, Htw, Htnc.
  destruct piece as [|[] []]; destruct end_piece as [|[] []];
    cbn [is_color same_color is_king cell_eqb color_eqb kind_eqb negb andb orb];
    repeat split; intros; try congruence;
    repeat match goal with
           | H : ?x = false |- context [?x] => rewrite H
           | H : ?x = 10 |- context [?x] => rewrite H
           end; reflexivity.
Qed.

Lemma no_capture_counter_witness :
  exists s1 s2,
    apply_move 10 ((4,3),(1,3)) init_board = Some s1 /\
    py_cell (board_of s1) 1 2 = Some (Pc Black Pawn) /\
    py_cell (board_of s1) 2 2 = Some Empty /\
    apply_move 10 ((1,2),(2,2)) s1 = Some s2 /\
    turns_without_capture s2 =
      (if turn_no_capture s1 then turns_without_capture s1 + 1
       else turns_without_capture s1).
Proof.
  destruct (apply_move 10 ((4,3),(1,3)) init_board) as [s1|] eqn:E1;
    [|vm_compute in E1; discriminate].
  assert (Hp : py_cell (board_of s1) 1 2 = Some (Pc Black Pawn))
    by (vm_compute in E1; injection E1 as <-; reflexivity).
  assert (He : py_cell (board_of s1) 2 2 = Some Empty)
    by (vm_compute in E1; injection E1 as <-; reflexivity).
  destruct (apply_move 10 ((1,2),(2,2)) s1) as [s2|] eqn:E2;
    [|vm_compute in E1; injection E1 as <-; vm_compute in E2; discriminate].
  exists s1, s2. repeat split; try assumption.
  apply (proj1 (proj2 (proj2 (no_capture_counter 10 s1 s2 1 2 2 2 _ _ Hp He E2))));
    [reflexivity | reflexivity].
Defined.

(** ** C4 *)

(** C4: [make_move] tests the end of the game in the order king taken,
    turn limit, no captures, sets [game_over_reason] to the first that
    holds, and when one holds it changes neither [turn] nor
    [turn_number]. *)
Theorem terminal_checks_priority max_turns s s' sr sc er ec piece end_piece :
  py_cell (board_of s) sr sc = Some piece ->
  py_cell (board_of s) er ec = Some end_piece ->
  apply_move max_turns ((sr, sc), (er, ec)) s = Some s' ->
  game_over_reason s' =
    (if is_king end_piece then reason_king_captured
     else if (turn_number s =? max_turns) && is_color piece Black then reason_max_turns
     else if turns_without_capture s' =? 10 then reason_no_captures
     else game_over_reason s) /\
  (is_king end_piece || ((turn_number s =? max_turns) && is_color piece Black)
     || (turns_without_capture s' =? 10) = true ->
   turn s' = turn s /\ turn_number s' = turn_number s).
Proof.
  intros Hp He Ha.
  destruct (make_move_fields max_turns s s' sr sc er ec piece end_piece Hp He Ha)
    as (Htw & _ & Hr & Ht & Htn).
  rewrite Htw. split; [exact Hr|].
  intros Hterm. rewrite Ht, Htn, Hterm. split; reflexivity.
Qed.

Lemma terminal_checks_priority_witness :
  (exists s',
     apply_move 10 ((3,1),(2,1)) init_board = Some s' /\
     game_over_reason s' =
       (if is_king Empty then reason_king_captured
        else if (turn_number init_board =? 10) && is_color (Pc White Pawn) Black
        then reason_max_turns
        else if turns_without_capture s' =? 10 then reason_no_captures
        else game_over_reason init_board)) /\
  (exists s',
     apply_move 10 ((3,4),(4,4)) queen_next_to_king = Some s' /\
     game_over_reason s' = reason_king_captured /\
     turn s' = turn queen_next_to_king /\
     turn_number s' = turn_number queen_next_to_king) /\
  (exists s1 s2,
     apply_move 1 ((3,1),(2,1)) init_board = Some s1 /\
     apply_move 1 ((1,2),(2,2)) s1 = Some s2 /\
     game_over_reason s2 = reason_max_turns /\
     turn s2 = turn s1 /\ turn_number s2 = turn_number s1).
Proof.
  split; [|split].
  - destruct (apply_move 10 ((3,1),(2,1)) init_board) as [s'|] eqn:E;
      [|vm_compute in E; discriminate].
    exists s'. split; [reflexivity|].
    exact (proj1 (terminal_checks_priority 10 init_board s' 3 1 2 1 _ _
                    eq_refl eq_refl E)).
  - destruct (apply_move 10 ((3,4),(4,4)) queen_next_to_king) as [s'|] eqn:E;
      [|vm_compute in E; discriminate].
    destruct (terminal_checks_priority 10 queen_next_to_king s' 3 4 4 4
                (Pc Black Queen) (Pc White King) eq_refl eq_refl E) as [Hr Hk].
    exists s'. split; [reflexivity|]. split; [exact Hr|].
    apply Hk. reflexivity.
  - destruct (apply_move 1 ((3,1),(2,1)) init_board) as [s1|] eqn:E1;
      [|vm_compute in E1; discriminate].
    assert (Hp : py_cell (board_of s1) 1 2 = Some (Pc Black Pawn))
      by (vm_compute in E1; injection E1 as <-; reflexivity).
    assert (He : py_cell (board_of s1) 2 2 = Some Empty)
      by (vm_compute in E1; injection E1 as <-; reflexivity).
    assert (Hn : turn_number s1 = 1) by (vm_compute in E1; injection E1 as <-; reflexivity).
    destruct (apply_move 1 ((1,2),(2,2)) s1) as [s2|] eqn:E2;
      [|vm_compute in E1; injection E1 as <-; vm_compute in E2; discriminate].
    destruct (terminal_checks_priority 1 s1 s2 1 2 2 2 _ _ Hp He E2) as [Hr Hk].
    exists s1, s2. split; [reflexivity|]. split; [exact E2|].
    rewrite Hn in Hr, Hk. simpl in Hr, Hk.
    split; [exact Hr|]. rewrite Hn. apply Hk. reflexivity.
Defined.

(** ** Move generation only reads the game state (C10) *)

Definition frame {A} (m : ST A) : Prop :=
  forall s a s', m s = Some (a, s') -> s' = s.

Lemma frame_ret {A} (a : A) : frame (ret a).
Proof. intros s b s' H. injection H as _ <-. reflexivity. Qed.

Lemma frame_bind {A B} (m : ST A) (k : A -> ST B) :
  frame m -> (forall a, frame (k a)) -> frame (bind m k).
Proof.
  intros Hm Hk s b s' H. unfold bind in H.
  destruct (m s) as [[a s1]|] eqn:E; [|discriminate].
  rewrite (Hk a s1 b s' H). exact (Hm s a s1 E).
Qed.

Lemma frame_read_turn : frame read_turn.
Proof. intros s a s' H. injection H as _ <-. reflexivity. Qed.

Lemma frame_read_board : frame read_board.
Proof. intros s a s' H. injection H as _ <-. reflexivity. Qed.

Lemma frame_read_cell acc r c : frame (read_cell acc r c).
Proof.
  intros s a s' H. unfold read_cell in H.
  destruct (acc (board_of s) r c); [injection H as _ <-; reflexivity | discriminate].
Qed.

Lemma frame_for_each {A B} (l : list A) (body : A -> B -> ST B) :
  (forall x b, frame (body x b)) -> forall b, frame (for_each l body b).
Proof.
  intros Hb. induction l as [|x l IH]; intros b; simpl.
  - apply frame_ret.
  - apply frame_bind; [apply Hb | intros; apply IH].
Qed.

Lemma frame_for_enum {A B} (l : list A) (body : Z -> A -> B -> ST B) :
  (forall i x b, frame (body i x b)) -> forall i b, frame (for_enum i l body b).
Proof.
  intros Hb. induction l as [|x l IH]; intros i b; simpl.
  - apply frame_ret.
  - apply frame_bind; [apply Hb | intros; apply IH].
Qed.

Create HintDb frame.

#[local] Hint Resolve frame_ret frame_read_turn frame_read_board frame_read_cell : frame.

Ltac frame_tac :=
  repeat first
    [ progress (intros)
    | solve [eauto with frame]
    | apply frame_bind
    | apply frame_for_each
    | apply frame_for_enum
    | match goal with
      | |- frame (if ?c then _ else _) => destruct c
      | |- frame (match ?x with _ => _ end) => destruct x
      | |- frame (let '(_, _) := ?x in _) => destruct x
      end ].

Lemma frame_slide acc fuel r c dr dc er ec : frame (slide acc fuel r c dr dc er ec).
Proof.
  revert er ec. induction fuel as [|fuel IH]; intros er ec; simpl; frame_tac.
Qed.

#[local] Hint Resolve frame_slide : frame.

Lemma frame_piece_moves acc k r c : frame (piece_moves acc k r c).
Proof.
  destruct k; simpl;
    unfold pawn_moves, step_moves, slide_moves; frame_tac.
Qed.

#[local] Hint Resolve frame_piece_moves : frame.

Lemma frame_valid_moves_with acc : frame (valid_moves_with acc).
Proof. unfold valid_moves_with. frame_tac. Qed.

(** C10: [valid_moves] and [is_valid_move] only read the game state:
    whenever they return, the state (board, turn, turn_number,
    turns_without_capture, turn_no_capture and game_over_reason) is the
    one they were called with. *)
Theorem move_generation_pure s :
  (forall ms s', valid_moves s = Some (ms, s') -> s' = s) /\
  (forall m b s', is_valid_move m s = Some (b, s') -> s' = s).
Proof.
  split.
  - intros ms s' H. exact (frame_valid_moves_with py_cell s ms s' H).
  - intros m b s' H. unfold is_valid_move in H.
    exact (frame_bind _ _ (frame_valid_moves_with py_cell)
             (fun ms => frame_ret _) s b s' H).
Qed.

Lemma move_generation_pure_witness :
  exists ms s', valid_moves init_board = Some (ms, s') /\ s' = init_board.
Proof.
  eexists; eexists; split; [vm_compute; reflexivity|].
  eapply (proj1 (move_generation_pure init_board)).
  vm_compute; reflexivity.
Defined.

(** ** Running the generator on a board of the data model *)

Lemma color_eqb_true a b : color_eqb a b = true -> a = b.
Proof. destruct a, b; simpl; congruence. Qed.

Lemma color_eqb_refl a : color_eqb a a = true.
Proof. destruct a; reflexivity. Qed.

Lemma py_cell_nat (b : board) (j j' : nat) :
  py_cell b (Z.of_nat j) (Z.of_nat j') =
  match nth_error b j with Some row => nth_error row j' | None => None end.
Proof.
  unfold py_cell, py_nth.
  destruct (Z.ltb_spec (Z.of_nat j) 0); [lia|]. rewrite Nat2Z.id.
  destruct (nth_error b j); [|reflexivity].
  destruct (Z.ltb_spec (Z.of_nat j') 0); [lia|]. rewrite Nat2Z.id. reflexivity.
Qed.

Section Generator.

Variable s : game_state.
Hypothesis Hshape : board_shape (board_of s).

(** Two runs of an action, on the state [s], both return the same value
    [a] and leave the state as it was, and [Q a] holds. *)
Definition rel {A} (m1 m2 : ST A) (Q : A -> Prop) : Prop :=
  exists a, m1 s = Some (a, s) /\ m2 s = Some (a, s) /\ Q a.

Lemma rel_ret {A} (a : A) (Q : A -> Prop) : Q a -> rel (ret a) (ret a) Q.
Proof. intros H. exists a. repeat split; assumption. Qed.

Lemma rel_bind {A B} (m1 m2 : ST A) (k1 k2 : A -> ST B) P Q :
  rel m1 m2 P -> (forall a, P a -> rel (k1 a) (k2 a) Q) ->
  rel (bind m1 k1) (bind m2 k2) Q.
Proof.
  intros (a & E1 & E2 & Pa) Hk. destruct (Hk a Pa) as (b & F1 & F2 & Qb).
  exists b. unfold bind. rewrite E1, E2. repeat split; assumption.
Qed.

(** The same, remembering how the second run went. *)
Lemma rel_bind_run {A B} (m1 m2 : ST A) (k1 k2 : A -> ST B) P Q :
  rel m1 m2 P -> (forall a, m2 s = Some (a, s) -> P a -> rel (k1 a) (k2 a) Q) ->
  rel (bind m1 k1) (bind m2 k2) Q.
Proof.
  intros (a & E1 & E2 & Pa) Hk. destruct (Hk a E2 Pa) as (b & F1 & F2 & Qb).
  exists b. unfold bind. rewrite E1, E2. repeat split; assumption.
Qed.

Lemma rel_bind_true {A B} (m1 m2 : ST A) (k1 k2 : A -> ST B) Q :
  rel m1 m2 (fun _ => True) -> (forall a, rel (k1 a) (k2 a) Q) ->
  rel (bind m1 k1) (bind m2 k2) Q.
Proof. intros H Hk. apply (rel_bind _ _ _ _ _ _ H). intros a _. apply Hk. Qed.

Lemma rel_conseq {A} (m1 m2 : ST A) (P Q : A -> Prop) :
  rel m1 m2 P -> (forall a, P a -> Q a) -> rel m1 m2 Q.
Proof. intros (a & E1 & E2 & Pa) H. exists a. auto. Qed.

Lemma rel_true {A} (m1 m2 : ST A) (P : A -> Prop) :
  rel m1 m2 P -> rel m1 m2 (fun _ => True).
Proof. intros H. apply (rel_conseq _ _ _ _ H). auto. Qed.

Lemma rel_read_turn : rel read_turn read_turn (fun t => t = turn s).
Proof. exists (turn s). repeat split. Qed.

Lemma rel_read_board : rel read_board read_board (fun b => b = board_of s).
Proof. exists (board_of s). repeat split. Qed.

Lemma shape_read r c :
  is_valid_coordinate (r, c) = true ->
  exists x, py_cell (board_of s) r c = Some x.
Proof.
  destruct Hshape as [Hlen Hrows]. unfold is_valid_coordinate, py_cell, py_nth.
  rewrite !andb_true_iff, !Z.ltb_lt. intros [[[H1 H2] H3] H4].
  destruct (Z.ltb_spec r 0); [lia|].
  destruct (nth_error (board_of s) (Z.to_nat r)) as [row|] eqn:Er.
  - destruct (Z.ltb_spec c 0); [lia|].
    assert (Hrow : length row = 5%nat).
    { apply nth_error_In in Er. rewrite Forall_forall in Hrows. auto. }
    destruct (nth_error row (Z.to_nat c)) as [x|] eqn:Ec; [eauto|].
    apply nth_error_None in Ec. lia.
  - apply nth_error_None in Er. lia.
Qed.

Lemma rel_for_each {A B} (l : list A) (body1 body2 : A -> B -> ST B) (I : B -> Prop) :
  (forall x b, In x l -> I b -> rel (body1 x b) (body2 x b) I) ->
  forall b, I b -> rel (for_each l body1 b) (for_each l body2 b) I.
Proof.
  induction l as [|x l IH]; intros Hb b Ib; simpl.
  - apply rel_ret; exact Ib.
  - eapply rel_bind; [apply Hb; [left; reflexivity | exact Ib]|].
    intros b' Ib'. apply IH; [|exact Ib'].
    intros y c Hy. apply Hb. right; exact Hy.
Qed.

(** A loop that appends to a list of moves: the moves at the end are the
    ones at the start and those each iteration contributes. *)
Lemma rel_for_each_union {A} (l : list A)
    (body1 body2 : A -> list move -> ST (list move)) (C : A -> move -> Prop) :
  (forall x moves, In x l ->
     rel (body1 x moves) (body2 x moves)
         (fun moves' => forall m, In m moves' <-> In m moves \/ C x m)) ->
  forall moves,
    rel (for_each l body1 moves) (for_each l body2 moves)
        (fun ms => forall m, In m ms <-> In m moves \/ exists x, In x l /\ C x m).
Proof.
  induction l as [|x l IH]; intros Hb moves; cbn [for_each].
  - apply rel_ret. intros m. split; [auto|]. intros [H|(y & [] & _)]. exact H.
  - eapply rel_bind; [apply Hb; left; reflexivity|]. intros moves' H'.
    eapply rel_conseq; [apply IH; intros y b Hy; apply Hb; right; exact Hy|].
    intros ms Hms m. cbv beta in Hms, H'. rewrite Hms, H'. split.
    + intros [[H|H]|(y & Hy & Hc)]; [left; exact H| |].
      * right. exists x. split; [left; reflexivity|exact H].
      * right. exists y. split; [right; exact Hy|exact Hc].
    + intros [H|(y & [<-|Hy] & Hc)]; [left; left; exact H|left; right; exact Hc|].
      right. exists y. split; assumption.
Qed.

Lemma rel_for_enum_union {A} (l : list A)
    (body1 body2 : Z -> A -> list move -> ST (list move))
    (C : Z -> A -> move -> Prop) :
  (forall i x moves,
     rel (body1 i x moves) (body2 i x moves)
         (fun moves' => forall m, In m moves' <-> In m moves \/ C i x m)) ->
  forall i moves,
    rel (for_enum i l body1 moves) (for_enum i l body2 moves)
        (fun ms => forall m, In m ms <-> In m moves \/
           exists j x, nth_error l j = Some x /\ C (i + Z.of_nat j) x m).
Proof.
  intros Hb. induction l as [|x l IH]; intros i moves; cbn [for_enum].
  - apply rel_ret. intros m. split; [auto|].
    intros [H|(j & y & Hj & _)]; [exact H|destruct j; discriminate].
  - eapply rel_bind; [apply Hb|]. intros moves' H'.
    eapply rel_conseq; [apply IH|]. intros ms Hms m. cbv beta in Hms, H'. rewrite Hms, H'. split.
    + intros [[H|H]|(j & y & Hj & Hc)]; [left; exact H| |].
      * right. exists 0%nat, x. split; [reflexivity|]. rewrite Z.add_0_r. exact H.
      * right. exists (S j), y. split; [exact Hj|].
        replace (i + Z.of_nat (S j)) with (i + 1 + Z.of_nat j) by lia. exact Hc.
    + intros [H|(j & y & Hj & Hc)]; [left; left; exact H|].
      destruct j as [|j]; cbn [nth_error] in Hj.
      * injection Hj as <-. left; right. rewrite Z.add_0_r in Hc. exact Hc.
      * right. exists j, y. split; [exact Hj|].
        replace (i + 1 + Z.of_nat j) with (i + Z.of_nat (S j)) by lia. exact Hc.
Qed.

Variable acc : accessor.
Hypothesis Hagree : forall r c, is_valid_coordinate (r, c) = true ->
  acc (board_of s) r c = py_cell (board_of s) r c.

Lemma rel_read_cell r c :
  is_valid_coordinate (r, c) = true ->
  rel (read_cell acc r c) (read_cell py_cell r c)
      (fun x => py_cell (board_of s) r c = Some x).
Proof.
  intros Hv. destruct (shape_read r c Hv) as [x Ex].
  exists x. unfold read_cell. rewrite Hagree by exact Hv. rewrite Ex. auto.
Qed.

Lemma rel_pawn_moves r c :
  rel (pawn_moves acc r c) (pawn_moves py_cell r c)
      (Forall (fun m : move => fst m = (r, c))).
Proof.
  unfold pawn_moves. cbv zeta.
  eapply rel_bind; [apply rel_read_turn|]. intros t Ht. cbv beta in Ht. subst t.
  eapply rel_bind_true.
  { destruct is_valid_coordinate eqn:Hv; [|apply rel_ret; exact I].
    eapply rel_bind_true; [eapply rel_true, rel_read_cell; exact Hv|].
    intros x. apply rel_ret. exact I. }
  intros fwd. apply rel_for_each; [|destruct fwd; repeat constructor].
  intros d moves _ Hm. eapply rel_bind_true.
  { destruct is_valid_coordinate eqn:Hv; [|apply rel_ret; exact I].
    eapply rel_bind_true; [eapply rel_true, rel_read_cell; exact Hv|].
    intros x. destruct (cell_eqb x Empty); [apply rel_ret; exact I|].
    eapply rel_bind_true; [eapply rel_true, rel_read_cell; exact Hv|].
    intros y. eapply rel_bind_true; [eapply rel_true, rel_read_turn|].
    intros t'. apply rel_ret. exact I. }
  intros ok. apply rel_ret. destruct ok; [|exact Hm].
  apply Forall_app. split; [exact Hm|repeat constructor].
Qed.

Lemma rel_step_moves dirs r c :
  rel (step_moves acc dirs r c) (step_moves py_cell dirs r c)
      (Forall (fun m : move => fst m = (r, c))).
Proof.
  unfold step_moves. eapply rel_bind_true.
  - apply rel_for_each; [|exact I]. intros [x y] ps _ _. cbv beta iota.
    destruct is_valid_coordinate eqn:Hv; [|apply rel_ret; exact I].
    eapply rel_bind_true; [eapply rel_true, rel_read_cell; exact Hv|].
    intros p. eapply rel_bind_true; [eapply rel_true, rel_read_turn|].
    intros t. apply rel_ret. exact I.
  - intros ps. apply rel_ret. apply Forall_forall. intros m Hm.
    apply in_map_iff in Hm. destruct Hm as (pos & <- & _). reflexivity.
Qed.

(** Square [i] of the ray from [(r, c)] in direction [(dr, dc)] is
    reached by a run of the [while] loop that starts at square [k] with
    [fuel] iterations: the squares before it are on the board and empty,
    and it is on the board and not of the side to move. *)
Definition reach (r c dr dc k : Z) (fuel : nat) (i : Z) : Prop :=
  k <= i < k + Z.of_nat fuel /\
  (forall i', k <= i' < i ->
     is_valid_coordinate (r + i' * dr, c + i' * dc) = true /\
     py_cell (board_of s) (r + i' * dr) (c + i' * dc) = Some Empty) /\
  is_valid_coordinate (r + i * dr, c + i * dc) = true /\
  exists x, py_cell (board_of s) (r + i * dr) (c + i * dc) = Some x /\
            same_color x (turn s) = false.

Lemma rel_slide_ray fuel r c dr dc k :
  rel (slide acc fuel r c dr dc (r + k * dr) (c + k * dc))
      (slide py_cell fuel r c dr dc (r + k * dr) (c + k * dc))
      (fun ray => forall m, In m ray <->
         exists i, m = ((r, c), (r + i * dr, c + i * dc)) /\
                   reach r c dr dc k fuel i).
Proof.
  revert k. induction fuel as [|fuel IH]; intros k; cbn [slide].
  - apply rel_ret. intros m; split; [intros []|].
    intros (i & _ & [Hi _]). lia.
  - destruct (is_valid_coordinate (r + k * dr, c + k * dc)) eqn:Hv.
    2:{ apply rel_ret. intros m; split; [intros []|].
        intros (i & -> & [Hi [Hmid [Hvi _]]]).
        destruct (Z.eq_dec i k) as [->|Hne]; [congruence|].
        destruct (Hmid k) as [Hvk _]; [lia|congruence]. }
    eapply rel_bind; [apply rel_read_cell; exact Hv|]. intros x Hx.
    eapply rel_bind; [apply rel_read_turn|]. intros t Ht.
    cbv beta in Hx, Ht. subst t.
    destruct (same_color x (turn s)) eqn:Hsc; cbn [negb].
    + apply rel_ret. intros m; split; [intros []|].
      intros (i & -> & [Hi [Hmid [Hvi (y & Hy & Hsy)]]]).
      destruct (Z.eq_dec i k) as [->|Hne].
      * rewrite Hx in Hy. injection Hy as <-. congruence.
      * destruct (Hmid k) as [_ He]; [lia|]. rewrite Hx in He.
        injection He as ->. discriminate Hsc.
    + eapply rel_bind; [apply rel_read_cell; exact Hv|]. intros y Hy.
      cbv beta in Hy. rewrite Hx in Hy. injection Hy as <-.
      destruct (cell_eqb x Empty) eqn:He; cbn [negb].
      * assert (Hxe : x = Empty) by (destruct x; [reflexivity|discriminate He]).
        subst x.
        replace (r + k * dr + dr) with (r + (k + 1) * dr) by lia.
        replace (c + k * dc + dc) with (c + (k + 1) * dc) by lia.
        eapply rel_bind; [apply IH|]. intros rest Hrest. cbv beta in Hrest. apply rel_ret.
        intros m. cbn [In]. rewrite Hrest. split.
        -- intros [<- | (i & -> & [Hi [Hmid Hend]])].
           ++ exists k. split; [reflexivity|]. split; [lia|].
              split; [intros; lia|]. split; [exact Hv|]. exists Empty; auto.
           ++ exists i. split; [reflexivity|]. split; [lia|]. split; [|exact Hend].
              intros i' Hi'. destruct (Z.eq_dec i' k) as [->|]; [auto|].
              apply Hmid; lia.
        -- intros (i & -> & [Hi [Hmid Hend]]).
           destruct (Z.eq_dec i k) as [->|Hne]; [left; reflexivity|right].
           exists i. split; [reflexivity|]. split; [lia|].
           split; [intros; apply Hmid; lia|exact Hend].
      * apply rel_ret. intros m; cbn [In]. split.
        -- intros [<- | []]. exists k. split; [reflexivity|]. split; [lia|].
           split; [intros; lia|]. split; [exact Hv|]. exists x; auto.
        -- intros (i & -> & [Hi [Hmid Hend]]).
           destruct (Z.eq_dec i k) as [->|Hne]; [left; reflexivity|].
           destruct (Hmid k) as [_ He']; [lia|]. rewrite Hx in He'.
           injection He' as ->. discriminate He.
Qed.

(** The moves of a bishop or a queen on [(r, c)]: the squares reached
    along one of its directions, starting one step away with the fuel of
    [slide_moves]. *)
Definition ray_set (dirs : list (Z * Z)) (r c : Z) (m : move) : Prop :=
  exists dr dc i, In (dr, dc) dirs /\ m = ((r, c), (r + i * dr, c + i * dc)) /\
                  reach r c dr dc 1 5 i.

Lemma rel_slide_moves dirs r c :
  rel (slide_moves acc dirs r c) (slide_moves py_cell dirs r c)
      (fun ms => forall m, In m ms <-> ray_set dirs r c m).
Proof.
  unfold slide_moves.
  eapply rel_conseq.
  { apply (rel_for_each_union dirs _ _
      (fun d m => let '(dr, dc) := d in
         exists i, m = ((r, c), (r + i * dr, c + i * dc)) /\ reach r c dr dc 1 5 i)).
    intros [dr dc] moves _. cbv beta iota.
    replace (r + dr) with (r + 1 * dr) by lia.
    replace (c + dc) with (c + 1 * dc) by lia.
    eapply rel_bind; [apply rel_slide_ray|]. intros ray Hray. apply rel_ret.
    intros m. cbv beta in Hray. rewrite in_app_iff, Hray. reflexivity. }
  intros ms Hms m. cbv beta in Hms. rewrite Hms. split.
  - intros [[]|([dr dc] & Hd & i & -> & Hr)]. exists dr, dc, i. auto.
  - intros (dr & dc & i & Hd & -> & Hr). right. exists (dr, dc). split; [exact Hd|].
    exists i. auto.
Qed.

Definition slider (k : kind) : option (list (Z * Z)) :=
  match k with
  | Bishop => Some bishop_directions
  | Queen => Some queen_directions
  | _ => None
  end.

Lemma rel_piece_moves k r c :
  rel (piece_moves acc k r c) (piece_moves py_cell k r c)
      (fun pm => Forall (fun m : move => fst m = (r, c)) pm /\
                 forall dirs, slider k = Some dirs ->
                   forall m, In m pm <-> ray_set dirs r c m).
Proof.
  assert (Hslide : forall dirs,
    rel (slide_moves acc dirs r c) (slide_moves py_cell dirs r c)
        (fun pm => Forall (fun m : move => fst m = (r, c)) pm /\
                   forall m, In m pm <-> ray_set dirs r c m)).
  { intros dirs. eapply rel_conseq; [apply rel_slide_moves|]. intros pm H.
    split; [|exact H]. apply Forall_forall. intros m Hm.
    apply H in Hm. destruct Hm as (dr & dc & i & _ & -> & _). reflexivity. }
  destruct k; cbn [piece_moves slider].
  - eapply rel_conseq; [apply rel_pawn_moves|]. intros pm H. split; [exact H|discriminate].
  - eapply rel_conseq; [apply rel_step_moves|]. intros pm H. split; [exact H|discriminate].
  - eapply rel_conseq; [apply Hslide|]. intros pm [H1 H2].
    split; [exact H1|]. intros dirs E. injection E as <-. exact H2.
  - eapply rel_conseq; [apply Hslide|]. intros pm [H1 H2].
    split; [exact H1|]. intros dirs E. injection E as <-. exact H2.
  - eapply rel_conseq; [apply rel_step_moves|]. intros pm H. split; [exact H|discriminate].
Qed.

(** The moves of [valid_moves]: those of the pieces of the side to move,
    each generated from its own square. *)
Definition gen_set (m : move) : Prop :=
  exists r c k pm,
    0 <= r < 5 /\ 0 <= c < 5 /\
    py_cell (board_of s) r c = Some (Pc (turn s) k) /\
    piece_moves py_cell k r c s = Some (pm, s) /\ In m pm.

Lemma rel_valid_moves :
  rel (valid_moves_with acc) valid_moves (fun ms => forall m, In m ms <-> gen_set m).
Proof.
  unfold valid_moves, valid_moves_with.
  eapply rel_bind; [apply rel_read_board|]. intros b Hb. cbv beta in Hb. subst b.
  set (C_in := fun (ri ci : Z) (x : cell) (m : move) =>
         exists k pm, x = Pc (turn s) k /\
           piece_moves py_cell k ri ci s = Some (pm, s) /\ In m pm).
  eapply rel_conseq.
  { apply (rel_for_enum_union _ _ _
      (fun ri row m => exists j x, nth_error row j = Some x /\
                                   C_in ri (0 + Z.of_nat j) x m)).
    intros ri row moves. apply (rel_for_enum_union _ _ _ (C_in ri)).
    intros ci x moves'.
    eapply rel_bind; [apply rel_read_turn|]. intros t Ht. cbv beta in Ht. subst t.
    destruct x as [|col k].
    - apply rel_ret. intros m. split; [auto|].
      intros [H|(k & pm & E & _)]; [exact H|discriminate E].
    - destruct (same_color (Pc col k) (turn s)) eqn:Hsc.
      + eapply rel_bind_run; [apply rel_piece_moves|]. intros pm Hrun _.
        apply rel_ret. intros m. rewrite in_app_iff.
        cbn [same_color] in Hsc. apply color_eqb_true in Hsc. subst col.
        split.
        * intros [H|H]; [left; exact H|]. right. exists k, pm. auto.
        * intros [H|(k' & pm' & E & Hrun' & Hin)]; [left; exact H|].
          injection E as <-. right. rewrite Hrun in Hrun'.
          injection Hrun' as <-. exact Hin.
      + apply rel_ret. intros m. split; [auto|].
        intros [H|(k' & pm' & E & _)]; [exact H|].
        injection E as -> ->. cbn [same_color] in Hsc.
        rewrite color_eqb_refl in Hsc. discriminate Hsc. }
  destruct Hshape as [Hlen Hrows].
  intros ms Hms m. rewrite Hms. split.
  - intros [[]|(j & row & Hj & j' & x & Hj' & k & pm & -> & Hrun & Hin)].
    rewrite !Z.add_0_l in Hrun.
    assert (Hrow : length row = 5%nat).
    { apply nth_error_In in Hj. rewrite Forall_forall in Hrows. auto. }
    assert (j < 5)%nat by (rewrite <- Hlen; apply nth_error_Some; congruence).
    assert (j' < 5)%nat by (rewrite <- Hrow; apply nth_error_Some; congruence).
    exists (Z.of_nat j), (Z.of_nat j'), k, pm.
    split; [lia|]. split; [lia|]. split; [|auto].
    rewrite py_cell_nat, Hj. exact Hj'.
  - intros (r & c & k & pm & Hr & Hc & Hcell & Hrun & Hin). right.
    rewrite <- (Z2Nat.id r) in Hcell, Hrun by lia.
    rewrite <- (Z2Nat.id c) in Hcell, Hrun by lia.
    rewrite py_cell_nat in Hcell.
    destruct (nth_error (board_of s) (Z.to_nat r)) as [row|] eqn:Hj;
      [|discriminate Hcell].
    exists (Z.to_nat r), row. split; [exact Hj|].
    exists (Z.to_nat c), (Pc (turn s) k). split; [exact Hcell|].
    exists k, pm. rewrite !Z.add_0_l. auto.
Qed.

End Generator.

(** C7: on a 5x5 board, [valid_moves] only indexes the board at
    coordinates that passed [is_valid_coordinate].  Any accessor that
    agrees with Python indexing on the valid coordinates, whatever it does
    elsewhere (including raising, [None], on every out-of-range pair,
    negative ones included), gives the same run of the generator; and the
    run does not raise. *)
Theorem valid_moves_checks_coordinates s acc :
  board_shape (board_of s) ->
  (forall r c, is_valid_coordinate (r, c) = true ->
     acc (board_of s) r c = py_cell (board_of s) r c) ->
  valid_moves_with acc s = valid_moves s /\
  exists ms, valid_moves s = Some (ms, s).
Proof.
  intros Hshape Hagree.
  destruct (rel_valid_moves s Hshape acc Hagree) as (ms & E1 & E2 & _).
  rewrite E1, E2. split; [reflexivity|]. exists ms. reflexivity.
Qed.

Lemma valid_moves_checks_coordinates_witness :
  let strict := fun b r c =>
    if is_valid_coordinate (r, c) then py_cell b r c else None in
  board_shape (board_of init_board) /\
  valid_moves_with strict init_board = valid_moves init_board /\
  exists ms, valid_moves init_board = Some (ms, init_board).
Proof.
  intros strict.
  assert (Hshape : board_shape (board_of init_board)).
  { split; [reflexivity|]. repeat constructor. }
  split; [exact Hshape|].
  apply (valid_moves_checks_coordinates init_board strict Hshape).
  intros r c Hv. unfold strict. rewrite Hv. reflexivity.
Defined.

(** ** Rays of the sliding pieces *)

Lemma bishop_in_queen d : In d bishop_directions -> In d queen_directions.
Proof. simpl. intuition. Qed.

Lemma direction_unique dr dc dr' dc' i j :
  In (dr, dc) queen_directions -> In (dr', dc') queen_directions ->
  1 <= i -> 1 <= j -> j * dr = i * dr' -> j * dc = i * dc' ->
  i = j /\ dr = dr' /\ dc = dc'.
Proof.
  simpl. intros H1 H2 Hi Hj E1 E2.
  repeat match goal with
  | H : _ \/ _ |- _ => destruct H as [H|H]
  | H : (_, _) = (_, _) |- _ => injection H as <- <-
  | H : False |- _ => destruct H
  end; lia.
Qed.

Lemma direction_bound dr dc r c j :
  In (dr, dc) queen_directions -> 0 <= j ->
  is_valid_coordinate (r, c) = true ->
  is_valid_coordinate (r + j * dr, c + j * dc) = true -> j < 5.
Proof.
  unfold is_valid_coordinate. rewrite !andb_true_iff, !Z.ltb_lt.
  simpl. intros H Hj Hv Hv'.
  repeat match goal with
  | H : _ \/ _ |- _ => destruct H as [H|H]
  | H : (_, _) = (_, _) |- _ => injection H as <- <-
  | H : False |- _ => destruct H
  end; lia.
Qed.

(** A move that starts on a square of the side to move is in the list of
    [valid_moves] exactly when it is in that piece's own list. *)
Lemma valid_moves_from_square s r c k pm ms m :
  board_shape (board_of s) ->
  valid_moves s = Some (ms, s) ->
  is_valid_coordinate (r, c) = true ->
  py_cell (board_of s) r c = Some (Pc (turn s) k) ->
  piece_moves py_cell k r c s = Some (pm, s) ->
  fst m = (r, c) ->
  In m ms <-> In m pm.
Proof.
  intros Hshape Hrun Hv Hcell Hpm Hsrc.
  destruct (rel_valid_moves s Hshape py_cell (fun _ _ _ => eq_refl))
    as (ms' & _ & E & Hset).
  rewrite Hrun in E. injection E as <-. rewrite Hset. split.
  - intros (r' & c' & k' & pm' & _ & _ & Hcell' & Hpm' & Hin).
    destruct (rel_piece_moves s Hshape py_cell (fun _ _ _ => eq_refl) k' r' c')
      as (pm'' & _ & E' & Hall & _).
    rewrite Hpm' in E'. injection E' as <-.
    rewrite Forall_forall in Hall. specialize (Hall m Hin). cbv beta in Hall.
    pose proof (eq_trans (eq_sym Hsrc) Hall) as Hrc.
    injection Hrc as <- <-. rewrite Hcell in Hcell'. injection Hcell' as <-.
    rewrite Hpm in Hpm'. injection Hpm' as <-. exact Hin.
  - intros Hin. exists r, c, k, pm.
    unfold is_valid_coordinate in Hv. rewrite !andb_true_iff, !Z.ltb_lt in Hv.
    repeat split; auto; lia.
Qed.

(** C5: along a ray of a bishop or a queen of the side to move, let
    square [j] be the first occupied square (those before it are empty).
    The move to square [j] is generated exactly when the piece there is
    an enemy piece (a friendly piece blocks without being a destination),
    and in either case no square beyond [j] on that ray is a
    destination. *)
Theorem slider_ray_stops s ms r c k dr dc j x :
  board_shape (board_of s) ->
  valid_moves s = Some (ms, s) ->
  is_valid_coordinate (r, c) = true ->
  py_cell (board_of s) r c = Some (Pc (turn s) k) ->
  (k = Bishop /\ In (dr, dc) bishop_directions \/
   k = Queen /\ In (dr, dc) queen_directions) ->
  1 <= j ->
  (forall i, 1 <= i < j ->
     is_valid_coordinate (r + i * dr, c + i * dc) = true /\
     py_cell (board_of s) (r + i * dr) (c + i * dc) = Some Empty) ->
  is_valid_coordinate (r + j * dr, c + j * dc) = true ->
  py_cell (board_of s) (r + j * dr) (c + j * dc) = Some x ->
  x <> Empty ->
  (In ((r, c), (r + j * dr, c + j * dc)) ms <-> same_color x (turn s) = false) /\
  (forall i, j < i -> ~ In ((r, c), (r + i * dr, c + i * dc)) ms).
Proof.
  intros Hshape Hrun Hv Hcell Hk Hj Hmid Hvj Hx Hne.
  assert (Hq : In (dr, dc) queen_directions /\
               exists dirs, slider k = Some dirs /\ In (dr, dc) dirs /\
                 forall d, In d dirs -> In d queen_directions).
  { destruct Hk as [[-> Hd]|[-> Hd]].
    - split; [apply bishop_in_queen; exact Hd|].
      exists bishop_directions. split; [reflexivity|]. split; [exact Hd|].
      exact bishop_in_queen.
    - split; [exact Hd|]. exists queen_directions. auto. }
  destruct Hq as [Hdq (dirs & Hsl & Hd & Hsub)].
  destruct (rel_piece_moves s Hshape py_cell (fun _ _ _ => eq_refl) k r c)
    as (pm & _ & Hpm & _ & Hrays).
  specialize (Hrays dirs Hsl).
  assert (Hmem : forall i, In ((r, c), (r + i * dr, c + i * dc)) ms <->
                 ray_set s dirs r c ((r, c), (r + i * dr, c + i * dc))).
  { intros i. rewrite <- Hrays.
    apply (valid_moves_from_square s r c k pm ms); auto. }
  (* a square of the ray is found on that ray only, at the same distance *)
  assert (Hfound : forall i, 1 <= i ->
            ray_set s dirs r c ((r, c), (r + i * dr, c + i * dc)) ->
            reach s r c dr dc 1 5 i).
  { intros i Hi (dr' & dc' & i' & Hd' & E & Hr).
    injection E as E1 E2.
    assert (1 <= i') by (destruct Hr as [Hb _]; lia).
    destruct (direction_unique dr dc dr' dc' i' i Hdq (Hsub _ Hd') ltac:(lia) Hi
                ltac:(lia) ltac:(lia)) as (-> & <- & <-).
    exact Hr. }
  split.
  - rewrite Hmem. split.
    + intros Hs. destruct (Hfound j Hj Hs) as (_ & _ & _ & y & Hy & Hsy).
      rewrite Hx in Hy. injection Hy as <-. exact Hsy.
    + intros Hsx. exists dr, dc, j. split; [exact Hd|]. split; [reflexivity|].
      assert (j < 5) by (apply (direction_bound dr dc r c j); auto; lia).
      split; [cbn; lia|]. split; [exact Hmid|]. split; [exact Hvj|].
      exists x. auto.
  - intros i Hi Hin. rewrite Hmem in Hin.
    destruct (Hfound i ltac:(lia) Hin) as (_ & Hmid' & _).
    destruct (Hmid' j ltac:(lia)) as [_ He]. rewrite Hx in He.
    injection He as ->. apply Hne. reflexivity.
Qed.

(** White's queen on d1 of the opening position looks up the d-file:
    d2 and d3 are empty and d4 holds a black pawn. *)
Lemma slider_ray_stops_witness :
  exists ms,
    valid_moves init_board = Some (ms, init_board) /\
    (In ((4, 3), (4 + 3 * -1, 3 + 3 * 0)) ms <->
     same_color (Pc Black Pawn) (turn init_board) = false) /\
    (forall i, 3 < i -> ~ In ((4, 3), (4 + i * -1, 3 + i * 0)) ms).
Proof.
  assert (Hshape : board_shape (board_of init_board)).
  { split; [reflexivity|]. repeat constructor. }
  destruct (rel_valid_moves init_board Hshape py_cell (fun _ _ _ => eq_refl))
    as (ms & _ & Hrun & _).
  exists ms. split; [exact Hrun|].
  apply (slider_ray_stops init_board ms 4 3 Queen (-1) 0 3 (Pc Black Pawn)).
  - exact Hshape.
  - exact Hrun.
  - reflexivity.
  - reflexivity.
  - right. split; [reflexivity|]. simpl. auto.
  - lia.
  - intros i Hi. assert (i = 1 \/ i = 2) as [-> | ->] by lia; split; reflexivity.
  - reflexivity.
  - reflexivity.
  - discriminate.
Defined.

(** * Further properties of the program *)

(** ** The moves of each piece *)

Section PieceMoves.

Variable s : game_state.
Hypothesis Hshape : board_shape (board_of s).

Let Hpy : forall r c, is_valid_coordinate (r, c) = true ->
  py_cell (board_of s) r c = py_cell (board_of s) r c := fun _ _ _ => eq_refl.

Lemma rel_for_each_collect {A T} (l : list A) (body : A -> list T -> ST (list T))
    (C : A -> T -> Prop) :
  (forall x acc, In x l ->
     rel s (body x acc) (body x acc)
         (fun acc' => forall t, In t acc' <-> In t acc \/ C x t)) ->
  forall acc,
    rel s (for_each l body acc) (for_each l body acc)
        (fun res => forall t, In t res <-> In t acc \/ exists x, In x l /\ C x t).
Proof.
  induction l as [|x l IH]; intros Hb acc; cbn [for_each].
  - apply rel_ret. intros t. split; [auto|]. intros [H|(y & [] & _)]. exact H.
  - eapply rel_bind; [apply Hb; left; reflexivity|]. intros acc' H'.
    eapply rel_conseq; [apply IH; intros y b Hy; apply Hb; right; exact Hy|].
    intros res Hres t. cbv beta in Hres, H'. rewrite Hres, H'. split.
    + intros [[H|H]|(y & Hy & Hc)]; [left; exact H| |].
      * right. exists x. split; [left; reflexivity|exact H].
      * right. exists y. split; [right; exact Hy|exact Hc].
    + intros [H|(y & [<-|Hy] & Hc)]; [left; left; exact H|left; right; exact Hc|].
      right. exists y. split; assumption.
Qed.

Lemma rel_step_dest dirs r c :
  rel s (step_moves py_cell dirs r c) (step_moves py_cell dirs r c)
      (fun pm => forall m, In m pm <->
         exists x y, In (x, y) dirs /\ m = ((r, c), (r + x, c + y)) /\
           is_valid_coordinate (r + x, c + y) = true /\
           exists p, py_cell (board_of s) (r + x) (c + y) = Some p /\
                     same_color p (turn s) = false).
Proof.
  unfold step_moves.
  eapply rel_bind.
  { apply (rel_for_each_collect dirs _
      (fun d e => let '(x, y) := d in
         e = (r + x, c + y) /\ is_valid_coordinate (r + x, c + y) = true /\
         exists p, py_cell (board_of s) (r + x) (c + y) = Some p /\
                   same_color p (turn s) = false)).
    intros [x y] ps _. cbv beta iota.
    destruct (is_valid_coordinate (r + x, c + y)) eqn:Hv.
    - eapply rel_bind; [apply (rel_read_cell s Hshape py_cell Hpy); exact Hv|].
      intros p Hp. eapply rel_bind; [apply rel_read_turn|]. intros t Ht.
      cbv beta in Hp, Ht. subst t. apply rel_ret. intros e.
      destruct (same_color p (turn s)) eqn:Hsc; cbn [negb].
      + split; [auto|]. intros [H|(-> & _ & p' & Hp' & Hsc')]; [exact H|].
        rewrite Hp in Hp'. injection Hp' as <-. congruence.
      + rewrite in_app_iff. cbn [In]. split.
        * intros [H|[<-|[]]]; [left; exact H|right]. eauto.
        * intros [H|(-> & _)]; [left; exact H|right; left; reflexivity].
    - apply rel_ret. intros e. split; [auto|].
      intros [H|(_ & Hv' & _)]; [exact H|congruence]. }
  intros ps Hps. cbv beta in Hps. apply rel_ret. intros m.
  rewrite in_map_iff. split.
  - intros (e & <- & He). apply Hps in He.
    destruct He as [[]|([x y] & Hd & -> & Hv & Hp)]. exists x, y. auto.
  - intros (x & y & Hd & -> & Hv & Hp). exists (r + x, c + y). split; [reflexivity|].
    apply Hps. right. exists (x, y). auto.
Qed.

Lemma rel_pawn_dest r c :
  let er := if color_eqb (turn s) White then r - 1 else r + 1 in
  rel s (pawn_moves py_cell r c) (pawn_moves py_cell r c)
      (fun pm => forall m, In m pm <->
         (m = ((r, c), (er, c)) /\ is_valid_coordinate (er, c) = true /\
          py_cell (board_of s) er c = Some Empty) \/
         (exists d, (d = -1 \/ d = 1) /\ m = ((r, c), (er, c + d)) /\
          is_valid_coordinate (er, c + d) = true /\
          exists y, py_cell (board_of s) er (c + d) = Some y /\ y <> Empty /\
                    same_color y (turn s) = false)).
Proof.
  intros er. unfold pawn_moves. cbv zeta.
  eapply rel_bind; [apply rel_read_turn|]. intros t Ht. cbv beta in Ht. subst t.
  fold er.
  eapply rel_bind with
    (P := fun fwd => fwd = true <-> is_valid_coordinate (er, c) = true /\
                                   py_cell (board_of s) er c = Some Empty).
  { destruct (is_valid_coordinate (er, c)) eqn:Hv.
    - eapply rel_bind; [apply (rel_read_cell s Hshape py_cell Hpy); exact Hv|].
      intros x Hx. cbv beta in Hx. apply rel_ret. rewrite Hx.
      destruct x; cbn [cell_eqb]; split; try discriminate; intuition congruence.
    - apply rel_ret. split; [discriminate|]. intros [H _]. discriminate H. }
  intros fwd Hfwd.
  eapply rel_conseq.
  { apply (rel_for_each_union s [-1; 1] _ _
      (fun d m => m = ((r, c), (er, c + d)) /\
         is_valid_coordinate (er, c + d) = true /\
         exists y, py_cell (board_of s) er (c + d) = Some y /\ y <> Empty /\
                   same_color y (turn s) = false)).
    intros d moves _.
    eapply rel_bind with
      (P := fun ok => ok = true <-> is_valid_coordinate (er, c + d) = true /\
         exists y, py_cell (board_of s) er (c + d) = Some y /\ y <> Empty /\
                   same_color y (turn s) = false).
    - destruct (is_valid_coordinate (er, c + d)) eqn:Hv.
      + eapply rel_bind; [apply (rel_read_cell s Hshape py_cell Hpy); exact Hv|].
        intros x Hx. cbv beta in Hx.
        destruct (cell_eqb x Empty) eqn:He.
        * apply rel_ret. split; [discriminate|].
          intros [_ (y & Hy & Hne & _)]. rewrite Hx in Hy. injection Hy as <-.
          destruct x; [congruence|discriminate He].
        * eapply rel_bind; [apply (rel_read_cell s Hshape py_cell Hpy); exact Hv|].
          intros y Hy. cbv beta in Hy. rewrite Hx in Hy. injection Hy as <-.
          eapply rel_bind; [apply rel_read_turn|]. intros t Ht.
          cbv beta in Ht. subst t. apply rel_ret.
          assert (x <> Empty) by (destruct x; [discriminate He|discriminate]).
          destruct (same_color x (turn s)) eqn:Hsc; cbn [negb].
          -- split; [discriminate|]. intros [_ (y & Hy & _ & Hsy)].
             rewrite Hx in Hy. injection Hy as <-. congruence.
          -- split; [intros _; split; [reflexivity|]; exists x; auto|reflexivity].
      + apply rel_ret. split; [discriminate|]. intros [H _]. discriminate H.
    - intros ok Hok. cbv beta in Hok. apply rel_ret. intros m.
      destruct ok.
      + rewrite in_app_iff. cbn [In]. destruct (proj1 Hok eq_refl) as [Hv Hy].
        split.
        * intros [H|[<-|[]]]; [left; exact H|right]. auto.
        * intros [H|(-> & _)]; [left; exact H|right; left; reflexivity].
      + split; [auto|]. intros [H|(-> & Hv & Hy)]; [exact H|].
        assert (false = true) by (apply Hok; auto). discriminate. }
  intros ms Hms m. cbv beta in Hms. rewrite Hms. split.
  - intros [H|(d & Hd & Hc)].
    + left. destruct fwd; [|destruct H].
      destruct H as [<-|[]]. destruct (proj1 Hfwd eq_refl). auto.
    + right. exists d. split; [|exact Hc]. cbn [In] in Hd. intuition.
  - intros [(-> & Hv & He)|(d & Hd & Hc)].
    + left. destruct fwd; [left; reflexivity|].
      assert (false = true) by (apply Hfwd; auto). discriminate.
    + right. exists d. split; [|exact Hc]. cbn [In]. intuition.
Qed.

End PieceMoves.

Lemma piece_moves_sound s k r c pm m :
  board_shape (board_of s) ->
  piece_moves py_cell k r c s = Some (pm, s) -> In m pm ->
  fst m = (r, c) /\ is_valid_coordinate (snd m) = true /\
  exists y, py_cell (board_of s) (fst (snd m)) (snd (snd m)) = Some y /\
            same_color y (turn s) = false.
Proof.
  intros Hshape Hrun Hin.
  pose proof (fun r c (_ : is_valid_coordinate (r, c) = true) =>
                @eq_refl _ (py_cell (board_of s) r c)) as Hpy.
  assert (Hstep : forall dirs, piece_moves py_cell k r c s = step_moves py_cell dirs r c s ->
            fst m = (r, c) /\ is_valid_coordinate (snd m) = true /\
            exists y, py_cell (board_of s) (fst (snd m)) (snd (snd m)) = Some y /\
                      same_color y (turn s) = false).
  { intros dirs E. destruct (rel_step_dest s Hshape dirs r c) as (pm' & _ & E' & H).
    rewrite <- E, Hrun in E'. injection E' as <-.
    apply H in Hin. destruct Hin as (x & y & _ & -> & Hv & p & Hp & Hsp).
    split; [reflexivity|]. split; [exact Hv|]. exists p. auto. }
  assert (Hslide : forall dirs, slider k = Some dirs ->
            fst m = (r, c) /\ is_valid_coordinate (snd m) = true /\
            exists y, py_cell (board_of s) (fst (snd m)) (snd (snd m)) = Some y /\
                      same_color y (turn s) = false).
  { intros dirs Hsl.
    destruct (rel_piece_moves s Hshape py_cell Hpy k r c) as (pm' & _ & E' & _ & H).
    rewrite Hrun in E'. injection E' as <-.
    apply (H dirs Hsl) in Hin.
    destruct Hin as (dr & dc & i & _ & -> & _ & _ & Hv & y & Hy & Hsy).
    split; [reflexivity|]. split; [exact Hv|]. exists y. auto. }
  destruct k.
  - destruct (rel_pawn_dest s Hshape r c) as (pm' & _ & E' & H).
    cbn [piece_moves] in Hrun. rewrite Hrun in E'. injection E' as <-.
    apply H in Hin. destruct Hin as [(-> & Hv & He)|(d & _ & -> & Hv & y & Hy & _ & Hsy)].
    + split; [reflexivity|]. split; [exact Hv|]. exists Empty. auto.
    + split; [reflexivity|]. split; [exact Hv|]. exists y. auto.
  - apply (Hstep knight_directions). reflexivity.
  - apply (Hslide bishop_directions). reflexivity.
  - apply (Hslide queen_directions). reflexivity.
  - apply (Hstep king_directions). reflexivity.
Qed.

Lemma generated_move_facts s ms m :
  board_shape (board_of s) ->
  valid_moves s = Some (ms, s) ->
  In m ms ->
  is_valid_coordinate (fst m) = true /\
  is_valid_coordinate (snd m) = true /\
  (exists k, py_cell (board_of s) (fst (fst m)) (snd (fst m)) = Some (Pc (turn s) k)) /\
  (exists y, py_cell (board_of s) (fst (snd m)) (snd (snd m)) = Some y /\
             same_color y (turn s) = false).
Proof.
  intros Hshape Hrun Hin.
  destruct (rel_valid_moves s Hshape py_cell (fun _ _ _ => eq_refl)) as (ms' & _ & E & Hset).
  rewrite Hrun in E. injection E as <-.
  apply Hset in Hin. destruct Hin as (r & c & k & pm & Hr & Hc & Hcell & Hpm & Hin).
  destruct (piece_moves_sound s k r c pm m Hshape Hpm Hin) as (Hsrc & Hv & Hdest).
  rewrite Hsrc. cbn [fst snd]. split.
  - unfold is_valid_coordinate. apply andb_true_iff. split; [apply andb_true_iff; split|];
      [apply andb_true_iff; split| |]; apply Z.ltb_lt; lia.
  - split; [exact Hv|]. split; [exists k; exact Hcell|exact Hdest].
Qed.

(** [valid_moves] only generates moves that start on a square of the
    board holding a piece of the side to move and end on a square of the
    board that does not hold a piece of the side to move. *)
Theorem valid_moves_sound s ms m :
  board_shape (board_of s) ->
  valid_moves s = Some (ms, s) ->
  In m ms ->
  is_valid_coordinate (fst m) = true /\
  is_valid_coordinate (snd m) = true /\
  (exists k, py_cell (board_of s) (fst (fst m)) (snd (fst m)) = Some (Pc (turn s) k)) /\
  (exists y, py_cell (board_of s) (fst (snd m)) (snd (snd m)) = Some y /\
             same_color y (turn s) = false).
Proof. exact (generated_move_facts s ms m). Qed.

Lemma valid_moves_some s :
  board_shape (board_of s) -> exists ms, valid_moves s = Some (ms, s).
Proof.
  intros Hshape.
  destruct (rel_valid_moves s Hshape py_cell (fun _ _ _ => eq_refl)) as (ms & _ & E & _).
  eauto.
Qed.

Lemma valid_moves_sound_witness :
  exists ms, valid_moves init_board = Some (ms, init_board) /\
    forall m, In m ms ->
      is_valid_coordinate (fst m) = true /\ is_valid_coordinate (snd m) = true /\
      (exists k, py_cell (board_of init_board) (fst (fst m)) (snd (fst m)) =
                 Some (Pc (turn init_board) k)) /\
      (exists y, py_cell (board_of init_board) (fst (snd m)) (snd (snd m)) = Some y /\
                 same_color y (turn init_board) = false).
Proof.
  assert (Hshape : board_shape (board_of init_board)).
  { split; [reflexivity|]. repeat constructor. }
  destruct (valid_moves init_board) as [[ms s']|] eqn:E; [|vm_compute in E; discriminate].
  assert (s' = init_board) by (vm_compute in E; injection E as _ <-; reflexivity).
  subst s'. exists ms. split; [reflexivity|].
  intros m Hin. exact (valid_moves_sound init_board ms m Hshape E Hin).
Defined.

(** Knights and kings: a move of the piece of the side to move on
    [(r, c)] is generated exactly when its destination is one offset
    away, on the board, and not a square holding a piece of the side to
    move. *)
Theorem step_piece_moves_exact s ms r c k dirs e :
  board_shape (board_of s) ->
  valid_moves s = Some (ms, s) ->
  is_valid_coordinate (r, c) = true ->
  py_cell (board_of s) r c = Some (Pc (turn s) k) ->
  (k = Knight /\ dirs = knight_directions \/ k = King /\ dirs = king_directions) ->
  In ((r, c), e) ms <->
  exists x y, In (x, y) dirs /\ e = (r + x, c + y) /\
    is_valid_coordinate (r + x, c + y) = true /\
    exists p, py_cell (board_of s) (r + x) (c + y) = Some p /\
              same_color p (turn s) = false.
Proof.
  intros Hshape Hrun Hv Hcell Hk.
  destruct (rel_step_dest s Hshape dirs r c) as (pm & _ & E & H).
  assert (Hpm : piece_moves py_cell k r c s = Some (pm, s))
    by (destruct Hk as [[-> ->]|[-> ->]]; exact E).
  rewrite (valid_moves_from_square s r c k pm ms ((r, c), e) Hshape Hrun Hv Hcell Hpm
             eq_refl).
  rewrite H. split.
  - intros (x & y & Hd & E' & Hr). injection E' as ->. eauto.
  - intros (x & y & Hd & -> & Hr). exists x, y. auto.
Qed.

Lemma step_piece_moves_exact_witness :
  exists ms, valid_moves init_board = Some (ms, init_board) /\
    (In ((4, 1), (2, 2)) ms <->
     exists x y, In (x, y) knight_directions /\ (2, 2) = (4 + x, 1 + y) /\
       is_valid_coordinate (4 + x, 1 + y) = true /\
       exists p, py_cell (board_of init_board) (4 + x) (1 + y) = Some p /\
                 same_color p (turn init_board) = false).
Proof.
  assert (Hshape : board_shape (board_of init_board)).
  { split; [reflexivity|]. repeat constructor. }
  destruct (valid_moves init_board) as [[ms s']|] eqn:E; [|vm_compute in E; discriminate].
  assert (s' = init_board) by (vm_compute in E; injection E as _ <-; reflexivity).
  subst s'. exists ms. split; [reflexivity|].
  apply (step_piece_moves_exact init_board ms 4 1 Knight knight_directions (2, 2)
           Hshape E eq_refl eq_refl).
  left. split; reflexivity.
Defined.

(** Pawns: a pawn of the side to move goes one row forward (up for white,
    down for black) onto an empty square of the board, or one row forward
    and one column aside onto a square of the board holding an enemy
    piece, and nowhere else. *)
Theorem pawn_moves_exact s ms r c e :
  board_shape (board_of s) ->
  valid_moves s = Some (ms, s) ->
  is_valid_coordinate (r, c) = true ->
  py_cell (board_of s) r c = Some (Pc (turn s) Pawn) ->
  let er := if color_eqb (turn s) White then r - 1 else r + 1 in
  In ((r, c), e) ms <->
  (e = (er, c) /\ is_valid_coordinate (er, c) = true /\
   py_cell (board_of s) er c = Some Empty) \/
  (exists d, (d = -1 \/ d = 1) /\ e = (er, c + d) /\
   is_valid_coordinate (er, c + d) = true /\
   exists y, py_cell (board_of s) er (c + d) = Some y /\ y <> Empty /\
             same_color y (turn s) = false).
Proof.
  intros Hshape Hrun Hv Hcell er.
  destruct (rel_pawn_dest s Hshape r c) as (pm & _ & E & H).
  rewrite (valid_moves_from_square s r c Pawn pm ms ((r, c), e) Hshape Hrun Hv Hcell E
             eq_refl).
  rewrite H. fold er. split.
  - intros [(E' & Hr)|(d & Hd & E' & Hr)]; injection E' as ->; [left|right; exists d]; auto.
  - intros [(-> & Hr)|(d & Hd & -> & Hr)]; [left|right; exists d]; auto.
Qed.

Lemma pawn_moves_exact_witness :
  exists ms, valid_moves init_board = Some (ms, init_board) /\
    (In ((3, 1), (2, 1)) ms <->
     ((2, 1) = (3 - 1, 1) /\ is_valid_coordinate (3 - 1, 1) = true /\
      py_cell (board_of init_board) (3 - 1) 1 = Some Empty) \/
     (exists d, (d = -1 \/ d = 1) /\ (2, 1) = (3 - 1, 1 + d) /\
      is_valid_coordinate (3 - 1, 1 + d) = true /\
      exists y, py_cell (board_of init_board) (3 - 1) (1 + d) = Some y /\ y <> Empty /\
                same_color y (turn init_board) = false)).
Proof.
  assert (Hshape : board_shape (board_of init_board)).
  { split; [reflexivity|]. repeat constructor. }
  destruct (valid_moves init_board) as [[ms s']|] eqn:E; [|vm_compute in E; discriminate].
  assert (s' = init_board) by (vm_compute in E; injection E as _ <-; reflexivity).
  subst s'. exists ms. split; [reflexivity|].
  exact (pawn_moves_exact init_board ms 3 1 (2, 1) Hshape E eq_refl eq_refl).
Defined.

(** ** Writing to the board *)

Lemma nth_error_set_nth {A} (l : list A) n m x :
  nth_error (set_nth l n x) m =
  if Nat.eqb n m then (if Nat.ltb n (length l) then Some x else None)
  else nth_error l m.
Proof.
  revert n m. induction l as [|y l IH]; intros [|n] [|m]; simpl; try reflexivity.
  all: try apply IH.
  all: destruct (Nat.eqb _ _); reflexivity.
Qed.

Lemma in_set_nth {A} (l : list A) n x z : In z (set_nth l n x) -> z = x \/ In z l.
Proof.
  revert n. induction l as [|y l IH]; intros [|n]; cbn [set_nth In]; try tauto.
  - intros [H|H]; [left; congruence|right; right; exact H].
  - intros [H|H]; [right; left; exact H|]. destruct (IH n H); tauto.
Qed.

Lemma sum_set_nth {A} (f : A -> Z) (l : list A) n x y :
  nth_error l n = Some y ->
  fold_right Z.add 0 (map f (set_nth l n x)) =
  fold_right Z.add 0 (map f l) - f y + f x.
Proof.
  revert n. induction l as [|z l IH]; intros [|n] H; cbn [nth_error] in H; try discriminate.
  - injection H as <-. cbn. lia.
  - cbn [set_nth map fold_right]. rewrite (IH n H). lia.
Qed.

Lemma py_nth_nonneg_Z {A} (l : list A) i : 0 <= i -> py_nth l i = nth_error l (Z.to_nat i).
Proof. intros H. unfold py_nth. destruct (Z.ltb_spec i 0); [lia|reflexivity]. Qed.

(** Python indexing with [-len <= i < len] reads and writes element [j]. *)
Lemma py_index_in {A} (l : list A) i x :
  - Z.of_nat (length l) <= i < Z.of_nat (length l) ->
  exists j, (j < length l)%nat /\ (0 <= i -> j = Z.to_nat i) /\
    py_nth l i = nth_error l j /\ py_set l i x = Some (set_nth l j x).
Proof.
  intros Hi. unfold py_nth, py_set.
  destruct (Z.ltb_spec i 0).
  - exists (Z.to_nat (Z.of_nat (length l) + i)). split; [lia|]. split; [lia|].
    destruct (Z.leb_spec (- Z.of_nat (length l)) i); [|lia].
    split; [reflexivity|]. cbn [andb]. destruct (Z.ltb_spec i (Z.of_nat (length l))); [|lia].
    reflexivity.
  - exists (Z.to_nat i). split; [lia|]. split; [reflexivity|]. split; [reflexivity|].
    destruct (Z.leb_spec (- Z.of_nat (length l)) i); [|lia].
    destruct (Z.ltb_spec i (Z.of_nat (length l))); [|lia]. reflexivity.
Qed.

Lemma shape_row b j row :
  board_shape b -> nth_error b j = Some row -> length row = 5%nat.
Proof.
  intros [_ Hrows] Hj. apply nth_error_In in Hj. rewrite Forall_forall in Hrows. auto.
Qed.

Lemma py_cell_range b r c :
  board_shape b ->
  (py_cell b r c <> None <-> -5 <= r < 5 /\ -5 <= c < 5).
Proof.
  intros Hshape. pose proof Hshape as [Hlen _]. unfold py_cell.
  destruct (py_nth b r) as [row|] eqn:Er.
  - assert (Hr : -5 <= r < 5).
    { assert (Hn : py_nth b r <> None) by congruence.
      rewrite py_nth_some, Hlen in Hn. exact Hn. }
    assert (Hr' : - Z.of_nat (length b) <= r < Z.of_nat (length b)) by (rewrite Hlen; exact Hr).
    destruct (py_index_in b r row Hr') as (j & _ & _ & Ej & _).
    rewrite Er in Ej. symmetry in Ej.
    pose proof (shape_row b j row Hshape Ej) as Hrow.
    rewrite py_nth_some, Hrow. cbn. tauto.
  - split; [congruence|]. intros [Hr _]. exfalso.
    apply (proj2 (py_nth_some b r)); [rewrite Hlen; exact Hr|exact Er].
Qed.

Lemma py_set_cell_shape b r c x :
  board_shape b -> -5 <= r < 5 -> -5 <= c < 5 ->
  exists b', py_set_cell b r c x = Some b' /\ board_shape b'.
Proof.
  intros Hshape Hr Hc. pose proof Hshape as [Hlen Hrows]. unfold py_set_cell.
  assert (Hr' : - Z.of_nat (length b) <= r < Z.of_nat (length b)) by (rewrite Hlen; exact Hr).
  destruct (py_index_in b r [] Hr') as (j & Hj & _ & Ej & _).
  destruct (nth_error b j) as [row|] eqn:Er; [|apply nth_error_None in Er; lia].
  pose proof (shape_row b j row Hshape Er) as Hrow.
  assert (Hc' : - Z.of_nat (length row) <= c < Z.of_nat (length row)) by (rewrite Hrow; exact Hc).
  destruct (py_index_in row c x Hc') as (j' & _ & _ & _ & Ec).
  rewrite Ej, Ec.
  destruct (py_index_in b r (set_nth row j' x) Hr') as (j2 & _ & _ & _ & Eb).
  rewrite Eb. eexists. split; [reflexivity|]. split; [rewrite set_nth_length; exact Hlen|].
  apply Forall_forall. intros z Hz. apply in_set_nth in Hz. destruct Hz as [->|Hz].
  - rewrite set_nth_length. exact Hrow.
  - rewrite Forall_forall in Hrows. auto.
Qed.

Lemma py_set_cell_valid b r c x :
  board_shape b -> is_valid_coordinate (r, c) = true ->
  exists b', py_set_cell b r c x = Some b' /\ board_shape b' /\
    (forall r' c', is_valid_coordinate (r', c') = true ->
       py_cell b' r' c' = if (r' =? r) && (c' =? c) then Some x else py_cell b r' c') /\
    (forall old, py_cell b r c = Some old ->
       board_score b' = board_score b - cell_score old + cell_score x).
Proof.
  intros Hshape Hv. pose proof Hshape as [Hlen Hrows].
  unfold is_valid_coordinate in Hv. rewrite !andb_true_iff, !Z.ltb_lt in Hv.
  assert (Hr : 0 <= r < 5) by lia. assert (Hc : 0 <= c < 5) by lia.
  assert (Hr' : - Z.of_nat (length b) <= r < Z.of_nat (length b)) by (rewrite Hlen; lia).
  destruct (nth_error b (Z.to_nat r)) as [row|] eqn:Er; [|apply nth_error_None in Er; lia].
  pose proof (shape_row b _ row Hshape Er) as Hrow.
  assert (Hc' : - Z.of_nat (length row) <= c < Z.of_nat (length row)) by (rewrite Hrow; lia).
  destruct (py_index_in row c x Hc') as (j' & Hj' & Hj'c & Ecn & Ec).
  rewrite (Hj'c ltac:(lia)) in Ec, Ecn.
  destruct (py_index_in b r (set_nth row (Z.to_nat c) x) Hr') as (j & Hj & Hjr & Ern & Eb).
  rewrite (Hjr ltac:(lia)) in Eb, Ern.
  assert (Hset : py_set_cell b r c x =
                 Some (set_nth b (Z.to_nat r) (set_nth row (Z.to_nat c) x))).
  { unfold py_set_cell. rewrite Ern, Er, Ec, Eb. reflexivity. }
  destruct (py_set_cell_shape b r c x Hshape ltac:(lia) ltac:(lia)) as (b' & Eb' & Hsh').
  rewrite Hset in Eb'. injection Eb' as <-.
  exists (set_nth b (Z.to_nat r) (set_nth row (Z.to_nat c) x)).
  split; [exact Hset|]. split; [exact Hsh'|]. split.
  - intros r' c' Hv'.
    unfold is_valid_coordinate in Hv'. rewrite !andb_true_iff, !Z.ltb_lt in Hv'.
    unfold py_cell. rewrite !(py_nth_nonneg_Z _ r') by lia.
    rewrite nth_error_set_nth.
    destruct (Z.eqb_spec r' r) as [->|Hne].
    + rewrite Nat.eqb_refl. destruct (Nat.ltb_spec (Z.to_nat r) (length b)); [|lia].
      rewrite Er. rewrite !(py_nth_nonneg_Z _ c') by lia.
      rewrite nth_error_set_nth, Hrow.
      destruct (Z.eqb_spec c' c) as [->|Hnc].
      * rewrite Nat.eqb_refl. destruct (Nat.ltb_spec (Z.to_nat c) 5); [reflexivity|lia].
      * replace (Nat.eqb (Z.to_nat c) (Z.to_nat c')) with false
          by (symmetry; apply Nat.eqb_neq; lia). reflexivity.
    + replace (Nat.eqb (Z.to_nat r) (Z.to_nat r')) with false
        by (symmetry; apply Nat.eqb_neq; lia). reflexivity.
  - intros old Hold. unfold py_cell in Hold.
    rewrite (py_nth_nonneg_Z _ r), Er, (py_nth_nonneg_Z _ c) in Hold by lia.
    unfold board_score. rewrite (sum_set_nth row_score b _ _ row Er).
    assert (row_score (set_nth row (Z.to_nat c) x) =
            row_score row - cell_score old + cell_score x)
      by (unfold row_score; apply sum_set_nth; exact Hold).
    lia.
Qed.

Lemma row_material_score row :
  row_material row White - row_material row Black = row_score row.
Proof.
  induction row as [|p row IH]; [reflexivity|].
  unfold row_material, row_score in *. cbn [map fold_right].
  destruct p as [|[] k]; cbn [color_eqb cell_score];
    try destruct k; cbn [spec_piece_value piece_value]; lia.
Qed.

(** [material_score] is the signed material of the board. *)
Lemma material_score_sum s : material_score s = board_score (board_of s).
Proof.
  assert (H : forall rows w b,
    let p := fold_left
      (fun sc row =>
         fold_left
           (fun '(w, b) piece =>
              match piece with
              | Pc White k => (w + piece_value k, b)
              | Pc Black k => (w, b + piece_value k)
              | Empty => (w, b)
              end) row sc) rows (w, b) in
    fst p - snd p = w - b + board_score rows).
  { induction rows as [|row rows IH]; intros w b; cbn zeta.
    - cbn. lia.
    - cbn [fold_left]. rewrite material_row. rewrite IH.
      unfold board_score. cbn [map fold_right]. fold (board_score rows).
      pose proof (row_material_score row). lia. }
  unfold material_score.
  specialize (H (board_of s) 0 0). cbn zeta in H.
  destruct (fold_left _ (board_of s) (0, 0)) as [w b]. cbn in H. lia.
Qed.

Lemma apply_move_board max_turns m s :
  option_map board_of (apply_move max_turns m s) = move_board (board_of s) m.
Proof.
  destruct m as [[sr sc] [er ec]].
  unfold apply_move, make_move, move_board.
  unfold bind, read_cell, write_cell, modify, get, ret. cbv beta iota zeta.
  destruct (py_cell (board_of s) sr sc) as [piece|]; [|reflexivity].
  destruct (py_cell (board_of s) er ec) as [endp|]; [|reflexivity].
  destruct (py_set_cell (board_of s) sr sc Empty) as [b1|]; [|reflexivity].
  cbn [board_of set_board].
  destruct (py_set_cell b1 er ec piece) as [b2|]; [|reflexivity].
  cbn [board_of set_board].
  repeat (first
    [ match goal with
      | |- context [py_set_cell ?b ?r ?c ?x] =>
          destruct (py_set_cell b r c x); [|reflexivity]
      end
    | match goal with
      | |- context [if ?c then _ else _] => destruct c
      end ]; cbn [board_of turn game_over_reason turn_number turns_without_capture
                  turn_no_capture set_board set_turn set_reason set_turn_number
                  set_turns_without_capture set_turn_no_capture option_map]).
  all: reflexivity.
Qed.

Lemma move_board_valid b sr sc er ec piece :
  board_shape b ->
  is_valid_coordinate (sr, sc) = true -> is_valid_coordinate (er, ec) = true ->
  py_cell b sr sc = Some piece ->
  let promoted :=
    if cell_eqb piece (Pc White Pawn) && (er =? 0) then Pc White Queen
    else if cell_eqb piece (Pc Black Pawn) && (er =? 4) then Pc Black Queen
    else piece in
  exists b', move_board b ((sr, sc), (er, ec)) = Some b' /\ board_shape b' /\
    (forall r c, is_valid_coordinate (r, c) = true ->
       py_cell b' r c =
         if (r =? er) && (c =? ec) then Some promoted
         else if (r =? sr) && (c =? sc) then Some Empty
         else py_cell b r c) /\
    ((sr, sc) <> (er, ec) -> forall endp, py_cell b er ec = Some endp ->
       board_score b' = board_score b - cell_score piece - cell_score endp
                        + cell_score promoted).
Proof.
  intros Hshape Hvs Hve Hp promoted.
  assert (He : exists endp, py_cell b er ec = Some endp).
  { destruct (py_cell b er ec) as [endp|] eqn:E; [eauto|].
    exfalso. refine (proj2 (py_cell_range b er ec Hshape) _ E).
    unfold is_valid_coordinate in Hve. rewrite !andb_true_iff, !Z.ltb_lt in Hve. lia. }
  destruct He as [endp He].
  destruct (py_set_cell_valid b sr sc Empty Hshape Hvs) as (b1 & E1 & Hs1 & Hc1 & Hm1).
  destruct (py_set_cell_valid b1 er ec piece Hs1 Hve) as (b2 & E2 & Hs2 & Hc2 & Hm2).
  assert (Hpromo : exists b3,
            (if cell_eqb piece (Pc White Pawn) && (er =? 0)
             then py_set_cell b2 er ec (Pc White Queen)
             else if cell_eqb piece (Pc Black Pawn) && (er =? 4)
             then py_set_cell b2 er ec (Pc Black Queen)
             else Some b2) = Some b3 /\ board_shape b3 /\
            (forall r c, is_valid_coordinate (r, c) = true ->
               py_cell b3 r c = if (r =? er) && (c =? ec) then Some promoted
                                else py_cell b2 r c) /\
            board_score b3 = board_score b2 - cell_score piece + cell_score promoted).
  { unfold promoted.
    destruct (cell_eqb piece (Pc White Pawn) && (er =? 0)) eqn:Ew;
      [|destruct (cell_eqb piece (Pc Black Pawn) && (er =? 4)) eqn:Eb].
    1,2: match goal with
         | |- context [py_set_cell ?bb _ _ ?q] =>
             destruct (py_set_cell_valid bb er ec q Hs2 Hve) as (b3 & E3 & Hs3 & Hc3 & Hm3)
         end;
         exists b3; split; [exact E3|]; split; [exact Hs3|]; split; [exact Hc3|];
         apply Hm3; rewrite Hc2 by exact Hve; rewrite !Z.eqb_refl; reflexivity.
    exists b2. split; [reflexivity|]. split; [exact Hs2|]. split; [|lia].
    intros r c Hv. rewrite Hc2 by exact Hv.
    destruct ((r =? er) && (c =? ec)); reflexivity. }
  destruct Hpromo as (b3 & E3 & Hs3 & Hc3 & Hm3).
  exists b3. split.
  { unfold move_board. rewrite Hp, He, E1, E2. exact E3. }
  split; [exact Hs3|]. split.
  - intros r c Hv. rewrite Hc3, Hc2, Hc1 by exact Hv.
    destruct ((r =? er) && (c =? ec)); reflexivity.
  - intros Hne endp' He'. rewrite He in He'. injection He' as <-.
    rewrite Hm3, (Hm2 endp), (Hm1 piece Hp); [change (cell_score Empty) with 0; lia|].
    rewrite Hc1 by exact Hve.
    destruct (Z.eqb_spec er sr) as [->|]; [destruct (Z.eqb_spec ec sc) as [->|]|];
      cbn [andb]; [congruence|exact He|exact He].
Qed.

(** [make_move] on squares of the board empties the start square and
    puts the moved piece on the destination (a white pawn reaching row 0
    becomes a white queen, a black pawn reaching row 4 a black queen);
    every other square keeps its content. *)
Theorem make_move_board max_turns s s' sr sc er ec piece :
  board_shape (board_of s) ->
  is_valid_coordinate (sr, sc) = true -> is_valid_coordinate (er, ec) = true ->
  py_cell (board_of s) sr sc = Some piece ->
  apply_move max_turns ((sr, sc), (er, ec)) s = Some s' ->
  forall r c, is_valid_coordinate (r, c) = true ->
    py_cell (board_of s') r c =
      if (r =? er) && (c =? ec) then
        Some (if cell_eqb piece (Pc White Pawn) && (er =? 0) then Pc White Queen
              else if cell_eqb piece (Pc Black Pawn) && (er =? 4) then Pc Black Queen
              else piece)
      else if (r =? sr) && (c =? sc) then Some Empty
      else py_cell (board_of s) r c.
Proof.
  intros Hshape Hvs Hve Hp Ha.
  destruct (move_board_valid (board_of s) sr sc er ec piece Hshape Hvs Hve Hp)
    as (b' & Eb & _ & Hc & _).
  pose proof (apply_move_board max_turns ((sr, sc), (er, ec)) s) as H.
  rewrite Ha, Eb in H. injection H as ->. exact Hc.
Qed.

Lemma make_move_board_witness :
  exists s', apply_move 10 ((3, 1), (2, 1)) init_board = Some s' /\
    py_cell (board_of s') 2 1 = Some (Pc White Pawn) /\
    py_cell (board_of s') 3 1 = Some Empty /\
    py_cell (board_of s') 0 0 = py_cell (board_of init_board) 0 0.
Proof.
  assert (Hshape : board_shape (board_of init_board)).
  { split; [reflexivity|]. repeat constructor. }
  destruct (apply_move 10 ((3, 1), (2, 1)) init_board) as [s'|] eqn:E;
    [|vm_compute in E; discriminate].
  exists s'. split; [reflexivity|].
  pose proof (make_move_board 10 init_board s' 3 1 2 1 (Pc White Pawn) Hshape
                eq_refl eq_refl eq_refl E) as H.
  split; [apply (H 2 1 eq_refl)|]. split; [apply (H 3 1 eq_refl)|apply (H 0 0 eq_refl)].
Defined.

(** [make_move] changes the material count ([material_score], white
    minus black) by the loss of the captured piece and the gain of a
    promotion: when the two squares differ, the score after the move is
    the score before, minus the signed value of the piece on the
    destination, plus the signed value gained by promoting the moved
    piece. *)
Theorem make_move_material max_turns s s' sr sc er ec piece end_piece :
  board_shape (board_of s) ->
  is_valid_coordinate (sr, sc) = true -> is_valid_coordinate (er, ec) = true ->
  (sr, sc) <> (er, ec) ->
  py_cell (board_of s) sr sc = Some piece ->
  py_cell (board_of s) er ec = Some end_piece ->
  apply_move max_turns ((sr, sc), (er, ec)) s = Some s' ->
  material_score s' =
    material_score s - cell_score end_piece +
    (cell_score (if cell_eqb piece (Pc White Pawn) && (er =? 0) then Pc White Queen
                 else if cell_eqb piece (Pc Black Pawn) && (er =? 4) then Pc Black Queen
                 else piece) - cell_score piece).
Proof.
  intros Hshape Hvs Hve Hne Hp He Ha.
  destruct (move_board_valid (board_of s) sr sc er ec piece Hshape Hvs Hve Hp)
    as (b' & Eb & _ & _ & Hm).
  pose proof (apply_move_board max_turns ((sr, sc), (er, ec)) s) as H.
  rewrite Ha, Eb in H. injection H as Hb.
  rewrite !material_score_sum, Hb, (Hm Hne end_piece He). lia.
Qed.

Lemma make_move_material_witness :
  exists s', apply_move 10 ((4, 3), (1, 3)) init_board = Some s' /\
    material_score s' = material_score init_board - cell_score (Pc Black Pawn) + 0.
Proof.
  assert (Hshape : board_shape (board_of init_board)).
  { split; [reflexivity|]. repeat constructor. }
  destruct (apply_move 10 ((4, 3), (1, 3)) init_board) as [s'|] eqn:E;
    [|vm_compute in E; discriminate].
  exists s'. split; [reflexivity|].
  assert (Hne : ((4, 3) : square) <> (1, 3)) by (intros [=]).
  rewrite (make_move_material 10 init_board s' 4 3 1 3 (Pc White Queen) (Pc Black Pawn)
             Hshape eq_refl eq_refl Hne eq_refl eq_refl E).
  reflexivity.
Defined.

Lemma move_board_range b sr sc er ec :
  board_shape b ->
  (move_board b ((sr, sc), (er, ec)) = None <->
   ~ (-5 <= sr < 5 /\ -5 <= sc < 5 /\ -5 <= er < 5 /\ -5 <= ec < 5)) /\
  (forall b', move_board b ((sr, sc), (er, ec)) = Some b' -> board_shape b').
Proof.
  intros Hb. pose proof (py_cell_range b sr sc Hb) as R1.
  pose proof (py_cell_range b er ec Hb) as R2.
  unfold move_board.
  destruct (py_cell b sr sc) as [piece|];
    [|split; [split; [intros _; intros (? & ? & _); exact (proj2 R1 ltac:(lia) eq_refl)|reflexivity]
             |discriminate]].
  destruct (py_cell b er ec) as [endp|];
    [|split; [split; [intros _; intros (_ & _ & ? & ?); exact (proj2 R2 ltac:(lia) eq_refl)|reflexivity]
             |discriminate]].
  assert (Hs : -5 <= sr < 5 /\ -5 <= sc < 5) by (apply R1; congruence).
  assert (He : -5 <= er < 5 /\ -5 <= ec < 5) by (apply R2; congruence).
  destruct (py_set_cell_shape b sr sc Empty Hb ltac:(lia) ltac:(lia)) as (b1 & E1 & H1).
  rewrite E1.
  destruct (py_set_cell_shape b1 er ec piece H1 ltac:(lia) ltac:(lia)) as (b2 & E2 & H2).
  rewrite E2.
  destruct (py_set_cell_shape b2 er ec (Pc White Queen) H2 ltac:(lia) ltac:(lia))
    as (b3 & E3 & H3).
  destruct (py_set_cell_shape b2 er ec (Pc Black Queen) H2 ltac:(lia) ltac:(lia))
    as (b4 & E4 & H4).
  rewrite E3, E4.
  split.
  - split; [|intros Hn; exfalso; apply Hn; lia].
    destruct (_ && _); [discriminate|]. destruct (_ && _); discriminate.
  - intros b'. destruct (_ && _); [intros [= <-]; exact H3|].
    destruct (_ && _); intros [= <-]; assumption.
Qed.

(** [make_move] raises an [IndexError] exactly when one of the four
    coordinates is outside Python's index range [-5, 4] of a 5x5 board
    (negative ones count from the end); when it returns, the board is
    still 5x5. *)
Theorem make_move_index_range max_turns s sr sc er ec :
  board_shape (board_of s) ->
  (apply_move max_turns ((sr, sc), (er, ec)) s = None <->
   ~ (-5 <= sr < 5 /\ -5 <= sc < 5 /\ -5 <= er < 5 /\ -5 <= ec < 5)) /\
  (forall s', apply_move max_turns ((sr, sc), (er, ec)) s = Some s' ->
     board_shape (board_of s')).
Proof.
  intros Hshape.
  pose proof (apply_move_board max_turns ((sr, sc), (er, ec)) s) as H.
  pose proof (move_board_range (board_of s) sr sc er ec Hshape) as Hmb.
  destruct Hmb as [Hn Hsome]. split.
  - rewrite <- Hn, <- H. destruct (apply_move _ _ _); cbn; split; congruence.
  - intros s' Ha. rewrite Ha in H. apply (Hsome (board_of s')). exact (eq_sym H).
Qed.

Lemma make_move_index_range_witness :
  board_shape (board_of init_board) /\
  apply_move 10 ((5, 1), (2, 1)) init_board = None.
Proof.
  assert (Hshape : board_shape (board_of init_board)).
  { split; [reflexivity|]. repeat constructor. }
  split; [exact Hshape|].
  apply (proj1 (make_move_index_range 10 init_board 5 1 2 1 Hshape)). lia.
Defined.

(** ** The game loop *)

Lemma move_eqb_refl m : move_eqb m m = true.
Proof. destruct m as [[a b] [c d]]; cbn. rewrite !Z.eqb_refl. reflexivity. Qed.

Lemma is_valid_move_run s m :
  board_shape (board_of s) ->
  exists ms, valid_moves s = Some (ms, s) /\
    is_valid_move m s = Some (existsb (move_eqb m) ms, s) /\
    (existsb (move_eqb m) ms = true <-> In m ms).
Proof.
  intros Hshape. destruct (valid_moves_some s Hshape) as [ms E].
  exists ms. split; [exact E|]. split.
  - unfold is_valid_move, bind, ret. rewrite E. reflexivity.
  - rewrite existsb_exists. split.
    + intros (m' & Hin & Heq). apply move_eqb_eq in Heq. subst m'. exact Hin.
    + intros Hin. exists m. split; [exact Hin|apply move_eqb_refl].
Qed.

Lemma legal_move_applies max_turns s ms m :
  board_shape (board_of s) -> valid_moves s = Some (ms, s) -> In m ms ->
  exists s', apply_move max_turns m s = Some s' /\ board_shape (board_of s').
Proof.
  intros Hshape E Hin.
  destruct (generated_move_facts s ms m Hshape E Hin) as (Hv1 & Hv2 & _ & _).
  destruct m as [[sr sc] [er ec]]; cbn [fst snd] in *.
  destruct (move_board_range (board_of s) sr sc er ec Hshape) as [Hn Hsome].
  pose proof (apply_move_board max_turns ((sr, sc), (er, ec)) s) as H.
  destruct (apply_move max_turns ((sr, sc), (er, ec)) s) as [s'|] eqn:Ea.
  - exists s'. split; [exact Ea|]. apply Hsome. exact (eq_sym H).
  - exfalso. apply Hn; [exact (eq_sym H)|].
    unfold is_valid_coordinate in Hv1, Hv2.
    rewrite !andb_true_iff, !Z.ltb_lt in Hv1, Hv2. lia.
Qed.

(** A human's pass of the game loop never raises on a 5x5 board; it
    makes a move exactly when the line read is not [exit] (in any case)
    and parses to a move that [valid_moves] generates, and the move made
    is that one. *)
Theorem human_turn_legal max_turns input s :
  board_shape (board_of s) ->
  human_turn max_turns input s <> None /\
  forall s', human_turn max_turns input s = Some (Played s') <->
    lower_string input <> "exit"%string /\
    exists m ms, parse_input input = Some m /\ run_moves s = Some ms /\ In m ms /\
                 apply_move max_turns m s = Some s'.
Proof.
  intros Hshape. unfold human_turn.
  destruct (String.eqb_spec (lower_string input) "exit").
  - split; [discriminate|]. intros s'. split; [discriminate|].
    intros [Hn _]. contradiction.
  - destruct (parse_input input) as [m|] eqn:Ep.
    + destruct (is_valid_move_run s m Hshape) as (ms & E & Ev & Hiff). rewrite Ev.
      assert (Hrun : run_moves s = Some ms) by (unfold run_moves; rewrite E; reflexivity).
      destruct (existsb (move_eqb m) ms) eqn:Ex.
      * destruct (legal_move_applies max_turns s ms m Hshape E (proj1 Hiff eq_refl))
          as (s1 & Ea & _).
        rewrite Ea. split; [discriminate|]. intros s'. split.
        -- intros H. injection H as <-. split; [assumption|]. exists m, ms. split; [reflexivity|]. split; [exact Hrun|]. split; [exact (proj1 Hiff eq_refl)|exact Ea].
        -- intros (_ & m' & ms' & Hm & _ & _ & Ea'). injection Hm as <-.
           rewrite Ea in Ea'. injection Ea' as <-. reflexivity.
      * split; [discriminate|]. intros s'. split; [discriminate|].
        intros (_ & m' & ms' & Hm & Hr & Hin & _). injection Hm as <-.
        rewrite Hrun in Hr. injection Hr as <-. apply Hiff in Hin. congruence.
    + split; [discriminate|]. intros s'. split; [discriminate|].
      intros (_ & m & _ & H & _). discriminate.
Qed.

Lemma human_turn_legal_witness :
  exists s', human_turn 10 "b2 B3" init_board = Some (Played s') /\
    lower_string "b2 B3" <> "exit"%string /\
    exists m ms, parse_input "b2 B3" = Some m /\ run_moves init_board = Some ms /\
                 In m ms /\ apply_move 10 m init_board = Some s'.
Proof.
  assert (Hshape : board_shape (board_of init_board)).
  { split; [reflexivity|]. repeat constructor. }
  destruct (human_turn_legal 10 "b2 B3"%string init_board Hshape) as [_ H].
  assert (Ht : exists s', human_turn 10 "b2 B3" init_board = Some (Played s'))
    by (eexists; vm_compute; reflexivity).
  destruct Ht as [s' Ht]. exists s'. split; [exact Ht|]. exact (proj1 (H s') Ht).
Defined.

(** One legal move: the board stays 5x5, and either the game is over or
    the reason is unchanged, the turn number stays within [max_turns]
    and the count of remaining moves drops by one. *)
Lemma legal_step max_turns s m s1 s' :
  board_shape (board_of s) -> turn_number s <= max_turns ->
  is_valid_move m s = Some (true, s1) -> apply_move max_turns m s1 = Some s' ->
  board_shape (board_of s') /\
  (game_over_reason s' <> ""%string \/
   (game_over_reason s' = game_over_reason s /\ turn_number s' <= max_turns /\
    2 * (max_turns - turn_number s') + (if color_eqb (turn s') White then 2 else 1) =
    2 * (max_turns - turn_number s) + (if color_eqb (turn s) White then 2 else 1) - 1)).
Proof.
  intros Hshape Hn Hv Ha.
  destruct (is_valid_move_run s m Hshape) as (ms & E & Ev & Hiff).
  rewrite Ev in Hv. injection Hv as Hx <-. apply Hiff in Hx.
  destruct (legal_move_applies max_turns s ms m Hshape E Hx) as (s2 & Ea & Hs2).
  rewrite Ha in Ea. injection Ea as <-. split; [exact Hs2|].
  destruct (generated_move_facts s ms m Hshape E Hx) as (_ & _ & [k Hk] & [y [Hy _]]).
  destruct m as [[sr sc] [er ec]]; cbn [fst snd] in *.
  pose proof (make_move_fields max_turns s s' sr sc er ec _ _ Hk Hy Ha) as F.
  cbv zeta in F. destruct F as (_ & _ & Hr & Ht & Hnum).
  destruct (is_king y); [left; rewrite Hr; cbv; discriminate|].
  destruct ((turn_number s =? max_turns) && is_color (Pc (turn s) k) Black) eqn:Emax;
    [left; rewrite Hr; cbv; discriminate|].
  cbv iota in Hr, Ht, Hnum.
  match type of Hr with
  | game_over_reason s' = (if ?t =? 10 then _ else _) => destruct (t =? 10)
  end; [left; rewrite Hr; cbv; discriminate|].
  cbn [orb] in Ht, Hnum. right. split; [exact Hr|].
  rewrite Ht, Hnum. unfold is_color, same_color in *.
  destruct (turn s); cbn [color_eqb andb] in *.
  - split; lia.
  - rewrite andb_true_r in Emax. apply Z.eqb_neq in Emax. split; lia.
Qed.

(** The game loop, started with no [game_over_reason], a 5x5 board and
    [turn_number <= max_turns], makes at most [2 * (max_turns -
    turn_number) + 2] legal moves with white to move ([+ 1] with black to
    move): each white move hands over to black, each black move raises the
    turn number, and a black move at [max_turns] ends the game. From
    [init_board] a game lasts at most [2 * max_turns] moves. *)
Theorem play_moves_bound max_turns ms s s' :
  board_shape (board_of s) -> game_over_reason s = ""%string ->
  turn_number s <= max_turns ->
  play_moves max_turns ms s = Some s' ->
  Z.of_nat (length ms) <=
    2 * (max_turns - turn_number s) + (if color_eqb (turn s) White then 2 else 1).
Proof.
  revert s. induction ms as [|m ms IH]; intros s Hshape Hr Hn Hp.
  - cbn [length Z.of_nat]. destruct (color_eqb _ _); lia.
  - cbn [play_moves] in Hp. rewrite Hr in Hp. cbn [String.eqb] in Hp.
    destruct (is_valid_move m s) as [[[|] s1]|] eqn:Ev; try discriminate.
    destruct (apply_move max_turns m s1) as [s2|] eqn:Ea; [|discriminate].
    destruct (legal_step max_turns s m s1 s2 Hshape Hn Ev Ea) as (Hs2 & [Hover|(Hr2 & Hn2 & Hpot)]).
    + destruct ms as [|m' ms']; cbn [play_moves] in Hp.
      * cbn [length Z.of_nat]. destruct (color_eqb _ _); lia.
      * destruct (String.eqb_spec (game_over_reason s2) ""); [contradiction|discriminate].
    + rewrite Hr in Hr2. specialize (IH s2 Hs2 Hr2 Hn2 Hp).
      rewrite length_cons, Nat2Z.inj_succ. lia.
Qed.

Lemma play_moves_bound_witness :
  exists s', play_moves 10 [((3, 1), (2, 1)); ((1, 2), (2, 1))] init_board = Some s' /\
    Z.of_nat (length ([((3, 1), (2, 1)); ((1, 2), (2, 1))] : list move)) <=
      2 * (10 - turn_number init_board) +
      (if color_eqb (turn init_board) White then 2 else 1).
Proof.
  assert (Hshape : board_shape (board_of init_board)).
  { split; [reflexivity|]. repeat constructor. }
  destruct (play_moves 10 [((3, 1), (2, 1)); ((1, 2), (2, 1))] init_board) as [s'|] eqn:E;
    [|vm_compute in E; discriminate].
  exists s'. split; [reflexivity|].
  exact (play_moves_bound 10 _ init_board s' Hshape eq_refl ltac:(cbn; lia) E).
Defined.

(** ** The move and the counters of the search *)

Lemma loop_max_best max_turns alphabeta child gs beta ms :
  forall mx best alpha st v b st',
  loop_max max_turns alphabeta child gs beta ms mx best alpha st = Some (v, b, st') ->
  (v = mx /\ b = best) \/ exists m, b = Some m /\ In m ms.
Proof.
  induction ms as [|m ms IH]; intros mx best alpha st v b st'; simpl.
  - intros H; injection H as <- <- <-. left; auto.
  - destruct (apply_move max_turns m gs) as [ps|]; [|discriminate].
    destruct (child ps alpha beta st) as [[[sv mv] st1]|]; [|discriminate].
    rewrite pair_if_max.
    assert (Hstep : forall v' b', v' = emax mx sv /\ b' = (if elt mx sv then Some m else best) ->
              (v' = mx /\ b' = best) \/ exists m0, b' = Some m0 /\ In m0 (m :: ms)).
    { intros v' b' [-> ->]. unfold emax. destruct (elt mx sv).
      - right. exists m. split; [reflexivity|left; reflexivity].
      - left. split; reflexivity. }
    destruct alphabeta; [destruct (ele beta (emax alpha sv))|]; intros H;
      [injection H as <- <- <-; apply Hstep; split; reflexivity| |];
      apply IH in H; destruct H as [H|(m' & -> & Hin)];
      solve [apply Hstep; exact H | right; exists m'; split; [reflexivity|right; exact Hin]].
Qed.

Lemma loop_min_best max_turns alphabeta child gs alpha ms :
  forall mn best beta st v b st',
  loop_min max_turns alphabeta child gs alpha ms mn best beta st = Some (v, b, st') ->
  (v = mn /\ b = best) \/ exists m, b = Some m /\ In m ms.
Proof.
  induction ms as [|m ms IH]; intros mn best beta st v b st'; simpl.
  - intros H; injection H as <- <- <-. left; auto.
  - destruct (apply_move max_turns m gs) as [ps|]; [|discriminate].
    destruct (child ps alpha beta st) as [[[sv mv] st1]|]; [|discriminate].
    rewrite pair_if_min.
    assert (Hstep : forall v' b', v' = emin mn sv /\ b' = (if elt sv mn then Some m else best) ->
              (v' = mn /\ b' = best) \/ exists m0, b' = Some m0 /\ In m0 (m :: ms)).
    { intros v' b' [-> ->]. unfold emin. destruct (elt sv mn).
      - right. exists m. split; [reflexivity|left; reflexivity].
      - left. split; reflexivity. }
    destruct alphabeta; [destruct (ele (emin beta sv) alpha)|]; intros H;
      [injection H as <- <- <-; apply Hstep; split; reflexivity| |];
      apply IH in H; destruct H as [H|(m' & -> & Hin)];
      solve [apply Hstep; exact H | right; exists m'; split; [reflexivity|right; exact Hin]].
Qed.

Lemma minimax_best max_turns alphabeta h self_depth expired gs depth t is_max
    alpha beta st v b st' :
  minimax max_turns alphabeta h self_depth expired gs depth t is_max alpha beta st
    = Some (v, b, st') ->
  (forall m, b = Some m -> exists ms, run_moves gs = Some ms /\ In m ms) /\
  (b = None -> v = (if is_max then NegInf else PosInf) \/
               exists z, h gs t = Some z /\ v = Fin z).
Proof.
  assert (Hleaf : forall st1,
    match h gs t with
    | Some v0 => Some (Fin v0, None, st1)
    | None => None
    end = Some (v, b, st') ->
    (forall m, b = Some m -> exists ms, run_moves gs = Some ms /\ In m ms) /\
    (b = None -> v = (if is_max then NegInf else PosInf) \/
                 exists z, h gs t = Some z /\ v = Fin z)).
  { intros st1. destruct (h gs t) as [z|]; [|discriminate].
    intros H; injection H as <- <- _. split; [discriminate|]. intros _. right. eauto. }
  destruct depth as [|d]; cbn [minimax].
  - destruct (py_incr _ _); [apply Hleaf|discriminate].
  - destruct (py_incr _ _); [|discriminate].
    destruct (_ || _); [apply Hleaf|].
    destruct (run_moves gs) as [ms|] eqn:Er; [|discriminate].
    destruct is_max; intros H;
      [apply loop_max_best in H|apply loop_min_best in H];
      (destruct H as [[-> ->]|(m & -> & Hin)];
       [split; [discriminate|intros _; left; reflexivity]
       |split; [intros m' Hm; injection Hm as <-; eauto|discriminate]]).
Qed.

(** The move the search hands to the game loop is one that
    [valid_moves] generates for the position; the search returns no move
    only with the score [-inf] (no move scored above it) or at a leaf,
    with the heuristic's value of the position. *)
Theorem search_move_generated max_turns alphabeta h depth expired s st v best st' :
  search max_turns alphabeta h depth expired s st = Some (v, best, st') ->
  (forall m, best = Some m -> exists ms, run_moves s = Some ms /\ In m ms) /\
  (best = None -> v = NegInf \/ exists z, h s (turn s) = Some z /\ v = Fin z).
Proof.
  unfold search. intros H. exact (minimax_best _ _ _ _ _ _ _ _ _ _ _ _ _ _ _ H).
Qed.

Lemma search_move_generated_witness :
  exists v best st', search 10 true e0 2 no_deadline init_board (fresh_stats 2)
                     = Some (v, best, st') /\
    (forall m, best = Some m -> exists ms, run_moves init_board = Some ms /\ In m ms) /\
    (best = None -> v = NegInf \/ exists z, e0 init_board (turn init_board) = Some z /\ v = Fin z).
Proof.
  destruct (search 10 true e0 2 no_deadline init_board (fresh_stats 2))
    as [[[v best] st']|] eqn:E; [|vm_compute in E; discriminate].
  exists v, best, st'. split; [reflexivity|].
  exact (search_move_generated 10 true e0 2 no_deadline init_board (fresh_stats 2)
           v best st' E).
Defined.

Lemma counted_refl st : counted st st.
Proof. unfold counted; lia. Qed.

Lemma counted_trans st1 st2 st3 : counted st1 st2 -> counted st2 st3 -> counted st1 st3.
Proof. unfold counted; lia. Qed.

Lemma py_incr_sum l i l' : py_incr l i = Some l' -> sum_list l' = sum_list l + 1.
Proof.
  unfold py_incr. destruct (py_nth l i) as [v|] eqn:En; [|discriminate].
  assert (Hi : - Z.of_nat (length l) <= i < Z.of_nat (length l))
    by (apply py_nth_some; congruence).
  destruct (py_index_in l i (v + 1) Hi) as (j & _ & _ & Ej & Es).
  rewrite Es. intros H; injection H as <-. rewrite En in Ej.
  unfold sum_list.
  pose proof (sum_set_nth (fun x => x) l j (v + 1) v (eq_sym Ej)) as Hs.
  rewrite !map_id in Hs. lia.
Qed.

Section SearchCounters.

Variables (max_turns : Z) (alphabeta : bool).

Lemma loop_max_counted child gs beta ms :
  (forall ps a b st r, child ps a b st = Some r -> counted st (snd r)) ->
  forall mx best alpha st r,
  loop_max max_turns alphabeta child gs beta ms mx best alpha st = Some r ->
  counted st (snd r).
Proof.
  intros Hc. induction ms as [|m ms IH]; intros mx best alpha st r; simpl.
  - intros H; injection H as <-. apply counted_refl.
  - destruct (apply_move max_turns m gs) as [ps|]; [|discriminate].
    destruct (child ps alpha beta st) as [[[sv mv] st']|] eqn:Ec; [|discriminate].
    apply Hc in Ec. simpl in Ec.
    rewrite pair_if_max.
    destruct alphabeta; [destruct (ele beta (emax alpha sv))|];
      intros H; [injection H as <-; exact Ec| |];
      eapply counted_trans; [exact Ec| | exact Ec|]; eapply IH; exact H.
Qed.

Lemma loop_min_counted child gs alpha ms :
  (forall ps a b st r, child ps a b st = Some r -> counted st (snd r)) ->
  forall mn best beta st r,
  loop_min max_turns alphabeta child gs alpha ms mn best beta st = Some r ->
  counted st (snd r).
Proof.
  intros Hc. induction ms as [|m ms IH]; intros mn best beta st r; simpl.
  - intros H; injection H as <-. apply counted_refl.
  - destruct (apply_move max_turns m gs) as [ps|]; [|discriminate].
    destruct (child ps alpha beta st) as [[[sv mv] st']|] eqn:Ec; [|discriminate].
    apply Hc in Ec. simpl in Ec.
    rewrite pair_if_min.
    destruct alphabeta; [destruct (ele (emin beta sv) alpha)|];
      intros H; [injection H as <-; exact Ec| |];
      eapply counted_trans; [exact Ec| | exact Ec|]; eapply IH; exact H.
Qed.

Lemma minimax_counted h self_depth expired depth :
  forall gs t is_max alpha beta st r,
  minimax max_turns alphabeta h self_depth expired gs depth t is_max alpha beta st = Some r ->
  counted st (snd r).
Proof.
  induction depth as [|d IH]; intros gs t is_max alpha beta st r; simpl.
  - destruct (py_incr _ _) as [pd|] eqn:Ei; [|discriminate].
    apply py_incr_sum in Ei.
    destruct (h gs t); [|discriminate].
    intros H; injection H as <-. unfold counted; simpl; lia.
  - destruct (py_incr _ _) as [pd|] eqn:Ei; [|discriminate].
    apply py_incr_sum in Ei.
    destruct (_ || _).
    + destruct (h gs t); [|discriminate].
      intros H; injection H as <-. unfold counted; simpl; lia.
    + destruct (run_moves gs) as [ms|]; [|discriminate].
      assert (G : counted st (mk_stats (total_nodes st + 1) (non_leaf_nodes st + 1) pd))
        by (unfold counted; simpl; lia).
      destruct is_max; intros H; eapply counted_trans; try exact G.
      * eapply loop_max_counted; [|exact H].
        intros ps a b st' r' Hc; exact (IH _ _ _ _ _ _ _ Hc).
      * eapply loop_min_counted; [|exact H].
        intros ps a b st' r' Hc; exact (IH _ _ _ _ _ _ _ Hc).
Qed.

End SearchCounters.

(** Over a search, the sum of [states_visited_per_depth] (the
    "cumulative states explored" the game loop prints) grows by exactly
    as much as [total_nodes], and [non_leaf_nodes] grows by at least 0
    and at most as much. *)
Theorem search_counters max_turns alphabeta h depth expired s st v best st' :
  search max_turns alphabeta h depth expired s st = Some (v, best, st') ->
  sum_list (states_visited_per_depth st') - sum_list (states_visited_per_depth st)
    = total_nodes st' - total_nodes st /\
  non_leaf_nodes st <= non_leaf_nodes st' /\
  non_leaf_nodes st' - non_leaf_nodes st <= total_nodes st' - total_nodes st.
Proof.
  unfold search. intros H. exact (minimax_counted _ _ _ _ _ _ _ _ _ _ _ _ _ H).
Qed.

Lemma search_counters_witness :
  exists v best st', search 10 false e0 2 no_deadline init_board (fresh_stats 2)
                     = Some (v, best, st') /\
    sum_list (states_visited_per_depth st') - sum_list (states_visited_per_depth (fresh_stats 2))
      = total_nodes st' - total_nodes (fresh_stats 2) /\
    non_leaf_nodes (fresh_stats 2) <= non_leaf_nodes st' /\
    non_leaf_nodes st' - non_leaf_nodes (fresh_stats 2)
      <= total_nodes st' - total_nodes (fresh_stats 2).
Proof.
  destruct (search 10 false e0 2 no_deadline init_board (fresh_stats 2))
    as [[[v best] st']|] eqn:E; [|vm_compute in E; discriminate].
  exists v, best, st'. split; [reflexivity|].
  exact (search_counters 10 false e0 2 no_deadline init_board (fresh_stats 2)
           v best st' E).
Defined.

(** ** Printing moves *)

Lemma column_translation_none i : column_translation i = None <-> ~ (0 <= i <= 4).
Proof.
  unfold column_translation.
  destruct (Z.eqb_spec i 0); [split; [discriminate|lia]|].
  destruct (Z.eqb_spec i 1); [split; [discriminate|lia]|].
  destruct (Z.eqb_spec i 2); [split; [discriminate|lia]|].
  destruct (Z.eqb_spec i 3); [split; [discriminate|lia]|].
  destruct (Z.eqb_spec i 4); [split; [discriminate|lia]|].
  split; [intros _; lia|reflexivity].
Qed.

(** [get_readable_move] raises a [KeyError] exactly when one of the two
    columns is outside [0..4]; the rows are never checked (row [7] is
    written as rank [-2]). *)
Theorem readable_move_keyerror sr sc er ec :
  get_readable_move ((sr, sc), (er, ec)) = None <-> ~ (0 <= sc <= 4 /\ 0 <= ec <= 4).
Proof.
  unfold get_readable_move.
  pose proof (column_translation_none sc) as H1.
  pose proof (column_translation_none ec) as H2.
  destruct (column_translation sc) as [a|]; destruct (column_translation ec) as [b|].
  - split; [discriminate|]. intros Hn. exfalso. apply Hn.
    split; [destruct (Z_le_dec 0 sc), (Z_le_dec sc 4)
           |destruct (Z_le_dec 0 ec), (Z_le_dec ec 4)];
      solve [lia | discriminate (proj2 H1 ltac:(lia)) | discriminate (proj2 H2 ltac:(lia))].
  - split; [intros _|reflexivity]. intros [_ He]. apply H2; [reflexivity|exact He].
  - split; [intros _|reflexivity]. intros [Hs _]. apply H1; [reflexivity|exact Hs].
  - split; [intros _|reflexivity]. intros [Hs _]. apply H1; [reflexivity|exact Hs].
Qed.

(** [print_valid_moves] never raises on the moves [valid_moves]
    generates for a 5x5 board, and prints one line for each. *)
Theorem print_valid_moves_total s ms :
  board_shape (board_of s) -> valid_moves s = Some (ms, s) ->
  exists lines, print_valid_moves ms s = Some lines /\ length lines = length ms.
Proof.
  intros Hshape E.
  assert (H : forall l, incl l ms ->
            exists lines, print_valid_moves l s = Some lines /\ length lines = length l).
  { induction l as [|m l IH]; intros Hincl.
    - exists []. split; reflexivity.
    - destruct IH as (lines & El & Hl); [intros x Hx; apply Hincl; right; exact Hx|].
      destruct (generated_move_facts s ms m Hshape E (Hincl m (or_introl eq_refl)))
        as (Hv1 & Hv2 & [k Hk] & _).
      destruct m as [[sr sc] [er ec]]; cbn [fst snd] in *.
      cbn [print_valid_moves fst snd]. rewrite Hk.
      match goal with
      | |- context [match get_readable_move ?x with _ => _ end] =>
          destruct (get_readable_move x) as [str|] eqn:Er
      end.
      + rewrite El. cbn [option_map]. eexists. split; [reflexivity|].
        cbn [length]. rewrite Hl. reflexivity.
      + exfalso. unfold get_readable_move in Er.
        unfold is_valid_coordinate in Hv1, Hv2.
        rewrite !andb_true_iff, !Z.ltb_lt in Hv1, Hv2.
        destruct (column_translation sc) eqn:Ec1;
          [destruct (column_translation ec) eqn:Ec2; [discriminate|]|];
          [apply (proj1 (column_translation_none ec) Ec2)
          |apply (proj1 (column_translation_none sc) Ec1)]; lia. }
  apply H. intros x Hx; exact Hx.
Qed.

Lemma print_valid_moves_total_witness :
  exists ms lines, valid_moves init_board = Some (ms, init_board) /\
    print_valid_moves ms init_board = Some lines /\ length lines = length ms.
Proof.
  assert (Hshape : board_shape (board_of init_board)).
  { split; [reflexivity|]. repeat constructor. }
  destruct (valid_moves init_board) as [[ms s']|] eqn:E; [|vm_compute in E; discriminate].
  assert (s' = init_board) by (vm_compute in E; injection E as _ <-; reflexivity).
  subst s'. destruct (print_valid_moves_total init_board ms Hshape E) as (lines & H1 & H2).
  exists ms, lines. auto.
Defined.

(** ** The evaluation functions on a 5x5 board *)

Lemma fold_count {A} (f : option (Z * Z) -> A -> option (Z * Z)) (l : list A) (k : Z) :
  0 <= k ->
  (forall x w b, In x l -> exists w' b', f (Some (w, b)) x = Some (w', b') /\
                   w <= w' /\ b <= b' /\ w' + b' <= w + b + k) ->
  forall w b, exists w' b', fold_left f l (Some (w, b)) = Some (w', b') /\
    w <= w' /\ b <= b' /\ w' + b' <= w + b + k * Z.of_nat (length l).
Proof.
  intros Hk. induction l as [|x l IH]; intros Hf w b.
  - exists w, b. split; [reflexivity|cbn; lia].
  - destruct (Hf x w b (or_introl eq_refl)) as (w1 & b1 & E & H1).
    destruct (IH (fun y w b Hy => Hf y w b (or_intror Hy)) w1 b1) as (w2 & b2 & E2 & H2).
    exists w2, b2. cbn [fold_left]. rewrite E. split; [exact E2|].
    rewrite length_cons, Nat2Z.inj_succ. lia.
Qed.

Lemma e2_bound s :
  board_shape (board_of s) ->
  exists w, e2 s White = Some w /\ e2 s Black = Some (- w) /\ -9 <= w <= 9.
Proof.
  intros Hshape.
  assert (Hcell : forall i j, In i [1; 2; 3] -> In j [1; 2; 3] ->
            exists x, py_cell (board_of s) i j = Some x).
  { intros i j Hi Hj. destruct (py_cell (board_of s) i j) as [x|] eqn:E; [eauto|].
    exfalso. refine (proj2 (py_cell_range (board_of s) i j Hshape) _ E).
    cbn in Hi, Hj. lia. }
  unfold e2. cbv beta zeta.
  match goal with
  | |- context [fold_left ?F [1; 2; 3] (Some (0, 0))] =>
      assert (Hstep : forall i w b, In i [1; 2; 3] ->
                exists w' b', F (Some (w, b)) i = Some (w', b') /\
                  w <= w' /\ b <= b' /\ w' + b' <= w + b + 3);
      [|destruct (fold_count F [1; 2; 3] 3 ltac:(lia) Hstep 0 0) as (w & b & E & Hw);
        rewrite E]
  end.
  - intros i w b Hi. cbv beta.
    match goal with
    | |- context [fold_left ?G [1; 2; 3] (Some (w, b))] =>
        assert (Hg : forall j w0 b0, In j [1; 2; 3] ->
                  exists w' b', G (Some (w0, b0)) j = Some (w', b') /\
                    w0 <= w' /\ b0 <= b' /\ w' + b' <= w0 + b0 + 1);
        [|destruct (fold_count G [1; 2; 3] 1 ltac:(lia) Hg w b) as (w' & b' & E & Hw);
          exists w', b'; split; [exact E|cbn in Hw; lia]]
    end.
    intros j w0 b0 Hj. cbv beta iota.
    destruct (Hcell i j Hi Hj) as [x Ex]. rewrite Ex.
    destruct x as [|[] kk]; do 2 eexists; (split; [reflexivity|lia]).
  - cbn in Hw. exists (w - b). cbn [color_eqb].
    split; [reflexivity|]. split; [f_equal; lia|lia].
Qed.

(** [e2] never raises on a 5x5 board, its values for the two sides are
    opposite, and they lie between [-9] and [9] (the centre has nine
    squares). *)
Theorem e2_antisymmetric s :
  board_shape (board_of s) ->
  exists w, e2 s White = Some w /\ e2 s Black = Some (- w) /\ -9 <= w <= 9.
Proof. exact (e2_bound s). Qed.

Lemma e2_antisymmetric_witness :
  exists w, e2 init_board White = Some w /\ e2 init_board Black = Some (- w) /\ -9 <= w <= 9.
Proof.
  assert (Hshape : board_shape (board_of init_board)).
  { split; [reflexivity|]. repeat constructor. }
  exact (e2_antisymmetric init_board Hshape).
Defined.

Lemma fold_rows_bound {A} (F : option (Z * Z) * Z -> A -> option (Z * Z) * Z) :
  (forall x row, snd (F x row) = snd x + 1 /\
     (fst (F x row) = fst x \/ exists c, fst (F x row) = Some (snd x, c))) ->
  forall rows x, 0 <= snd x -> (forall k, fst x = Some k -> 0 <= fst k < snd x) ->
  forall k, fst (fold_left F rows x) = Some k -> 0 <= fst k < snd x + Z.of_nat (length rows).
Proof.
  intros HF. induction rows as [|row rows IH]; intros x Hx Hk k Hf.
  - cbn [fold_left] in Hf. specialize (Hk k Hf). cbn [length Z.of_nat]. lia.
  - cbn [fold_left] in Hf. destruct (HF x row) as [Hs Hf1].
    assert (Hk' : forall k, fst (F x row) = Some k -> 0 <= fst k < snd (F x row)).
    { intros k' E. rewrite Hs. destruct Hf1 as [E1|(c & E1)]; rewrite E1 in E.
      - specialize (Hk k' E). lia.
      - injection E as <-. cbn [fst]. lia. }
    specialize (IH (F x row) ltac:(lia) Hk' k Hf). rewrite Hs in IH.
    rewrite length_cons, Nat2Z.inj_succ. lia.
Qed.

Lemma fold_cols_bound {A} (r : Z) (G : option (Z * Z) * Z -> A -> option (Z * Z) * Z) :
  (forall x p, fst (G x p) = fst x \/ exists c, fst (G x p) = Some (r, c)) ->
  forall row x, fst (fold_left G row x) = fst x \/
                exists c, fst (fold_left G row x) = Some (r, c).
Proof.
  intros HG. induction row as [|p row IH]; intros x; [left; reflexivity|].
  cbn [fold_left]. destruct (IH (G x p)) as [E|E]; [|right; exact E].
  rewrite E. exact (HG x p).
Qed.

(** [find_king] returns a square in a row of the board. *)
Lemma find_king_row b t kc :
  find_king b t = Some kc -> 0 <= fst kc < Z.of_nat (length b).
Proof.
  unfold find_king. intros H.
  refine (fold_rows_bound _ _ b (None, 0) _ _ kc H); [| cbn; lia | discriminate].
  intros [kc0 r] row. cbv beta iota. cbn [fst snd]. split; [reflexivity|].
  refine (fold_cols_bound r _ _ row (kc0, 0)).
  intros [kc1 c] p. cbv beta iota. cbn [fst].
  destruct (cell_eqb p (Pc t King)); [right; eauto|left; reflexivity].
Qed.

Lemma count_forward_bound b rows c :
  board_shape b -> (forall r, In r rows -> 0 <= r < 5) ->
  exists n, count_forward b rows c = Some n /\ 0 <= n <= 5 * Z.of_nat (length rows).
Proof.
  intros Hshape. pose proof Hshape as [Hlen _].
  induction rows as [|r rows IH]; intros Hr.
  - exists 0. split; [reflexivity|cbn; lia].
  - destruct IH as (n & E & Hn); [intros; apply Hr; right; assumption|].
    assert (H0 : 0 <= r < 5) by (apply Hr; left; reflexivity).
    destruct (nth_error b (Z.to_nat r)) as [row|] eqn:Er; [|apply nth_error_None in Er; lia].
    pose proof (shape_row b _ row Hshape Er) as Hrow.
    cbn [count_forward]. rewrite py_nth_nonneg_Z by lia. rewrite Er, E.
    eexists. split; [reflexivity|].
    pose proof (filter_length_le (fun p => same_color p c) row) as Hf.
    rewrite length_cons, Nat2Z.inj_succ. lia.
Qed.

Lemma range_down_in a stop x : In x (range_down a stop) -> stop < x <= a.
Proof.
  unfold range_down. intros Hx. apply in_map_iff in Hx.
  destruct Hx as (i & <- & Hi). apply in_seq in Hi. lia.
Qed.

Lemma range_up_in a stop x : In x (range_up a stop) -> a <= x < stop.
Proof.
  unfold range_up. intros Hx. apply in_map_iff in Hx.
  destruct Hx as (i & <- & Hi). apply in_seq in Hi. lia.
Qed.

Lemma king_safety_bound s t :
  board_shape (board_of s) ->
  exists v, king_safety_score s t = Some v /\
    (v = -999 \/ exists n, 0 <= n <= 20 /\ v = 4 * n - 10).
Proof.
  intros Hshape. pose proof Hshape as [Hlen _]. unfold king_safety_score.
  destruct (find_king (board_of s) t) as [[kr kc]|] eqn:Ek;
    [|eexists; split; [reflexivity|left; reflexivity]].
  apply find_king_row in Ek. rewrite Hlen in Ek. cbn [fst] in *.
  assert (Hcount : forall rows, (forall r, In r rows -> 0 <= r < 5) ->
            (length rows <= 4)%nat ->
            exists v, match count_forward (board_of s) rows t with
                      | Some n => Some (4 * n - 10)
                      | None => None
                      end = Some v /\
                      (v = -999 \/ exists n, 0 <= n <= 20 /\ v = 4 * n - 10)).
  { intros rows Hr Hl. destruct (count_forward_bound (board_of s) rows t Hshape Hr)
      as (n & E & Hn). rewrite E. eexists. split; [reflexivity|].
    right. exists n. split; [lia|reflexivity]. }
  assert (Hrest : exists v,
            match t with
            | White =>
                match count_forward (board_of s) (range_down (kr - 1) (-1)) White with
                | Some n => Some (4 * n - 10)
                | None => None
                end
            | Black =>
                match count_forward (board_of s) (range_up (kr + 1) 5) Black with
                | Some n => Some (4 * n - 10)
                | None => None
                end
            end = Some v /\ (v = -999 \/ exists n, 0 <= n <= 20 /\ v = 4 * n - 10)).
  { destruct t; apply Hcount.
    - intros r Hr. apply range_down_in in Hr. lia.
    - unfold range_down. rewrite length_map, length_seq. lia.
    - intros r Hr. apply range_up_in in Hr. lia.
    - unfold range_up. rewrite length_map, length_seq. lia. }
  destruct (negb (color_eqb (turn s) t)); [|exact Hrest].
  destruct (valid_moves_some s Hshape) as [ms E].
  assert (Hr : run_moves s = Some ms) by (unfold run_moves; rewrite E; reflexivity).
  rewrite Hr.
  match goal with |- context [existsb ?f ms] => destruct (existsb f ms) end;
    [|exact Hrest].
  eexists. split; [reflexivity|left; reflexivity].
Qed.

(** [king_safety_score] never raises on a 5x5 board: it is [-999], or
    [4 * n - 10] where [n], the number of the side's pieces on the rows in
    front of its king, is between 0 and 20. *)
Theorem king_safety_range s t :
  board_shape (board_of s) ->
  exists v, king_safety_score s t = Some v /\
    (v = -999 \/ exists n, 0 <= n <= 20 /\ v = 4 * n - 10).
Proof. exact (king_safety_bound s t). Qed.

Lemma king_safety_range_witness :
  exists v, king_safety_score init_board Black = Some v /\
    (v = -999 \/ exists n, 0 <= n <= 20 /\ v = 4 * n - 10).
Proof.
  assert (Hshape : board_shape (board_of init_board)).
  { split; [reflexivity|]. repeat constructor. }
  exact (king_safety_range init_board Black Hshape).
Defined.

(** ** The search never raises *)

Lemma py_incr_in_range l i :
  0 <= i < Z.of_nat (length l) -> exists l', py_incr l i = Some l'.
Proof.
  intros Hi. unfold py_incr.
  destruct (py_index_in l i 0 ltac:(lia)) as (j & Hj & _ & Ej & _).
  destruct (nth_error l j) as [v|] eqn:Ev; [|apply nth_error_None in Ev; lia].
  rewrite Ej.
  destruct (py_index_in l i (v + 1) ltac:(lia)) as (j' & _ & _ & _ & Es).
  rewrite Es. eauto.
Qed.

Section SearchTotal.

Variables (max_turns : Z) (alphabeta : bool).

Lemma loop_max_some child gs beta n :
  (forall ps a b st, board_shape (board_of ps) -> length (states_visited_per_depth st) = n ->
     exists r, child ps a b st = Some r /\ length (states_visited_per_depth (snd r)) = n) ->
  forall ms,
  (forall m, In m ms ->
     exists s', apply_move max_turns m gs = Some s' /\ board_shape (board_of s')) ->
  forall mx best alpha st, length (states_visited_per_depth st) = n ->
  exists r, loop_max max_turns alphabeta child gs beta ms mx best alpha st = Some r.
Proof.
  intros Hc ms. induction ms as [|m ms IH]; intros Hm mx best alpha st Hl; simpl.
  - eauto.
  - destruct (Hm m (or_introl eq_refl)) as (ps & Ea & Hps). rewrite Ea.
    destruct (Hc ps alpha beta st Hps Hl) as ([[sv mv] st'] & Ec & Hl'). rewrite Ec.
    cbn [snd] in Hl'. rewrite pair_if_max.
    assert (Hm' : forall m', In m' ms ->
              exists s', apply_move max_turns m' gs = Some s' /\ board_shape (board_of s'))
      by (intros m' Hin; apply Hm; right; exact Hin).
    destruct alphabeta; [destruct (ele beta (emax alpha sv))|];
      [eauto|apply IH; assumption|apply IH; assumption].
Qed.

Lemma loop_min_some child gs alpha n :
  (forall ps a b st, board_shape (board_of ps) -> length (states_visited_per_depth st) = n ->
     exists r, child ps a b st = Some r /\ length (states_visited_per_depth (snd r)) = n) ->
  forall ms,
  (forall m, In m ms ->
     exists s', apply_move max_turns m gs = Some s' /\ board_shape (board_of s')) ->
  forall mn best beta st, length (states_visited_per_depth st) = n ->
  exists r, loop_min max_turns alphabeta child gs alpha ms mn best beta st = Some r.
Proof.
  intros Hc ms. induction ms as [|m ms IH]; intros Hm mn best beta st Hl; simpl.
  - eauto.
  - destruct (Hm m (or_introl eq_refl)) as (ps & Ea & Hps). rewrite Ea.
    destruct (Hc ps alpha beta st Hps Hl) as ([[sv mv] st'] & Ec & Hl'). rewrite Ec.
    cbn [snd] in Hl'. rewrite pair_if_min.
    assert (Hm' : forall m', In m' ms ->
              exists s', apply_move max_turns m' gs = Some s' /\ board_shape (board_of s'))
      by (intros m' Hin; apply Hm; right; exact Hin).
    destruct alphabeta; [destruct (ele (emin beta sv) alpha)|];
      [eauto|apply IH; assumption|apply IH; assumption].
Qed.

Variables (h : heuristic) (D : nat) (expired : Z -> bool).
Hypothesis Hh : forall gs t, board_shape (board_of gs) -> exists v, h gs t = Some v.

Lemma minimax_some d :
  forall gs t is_max alpha beta st,
  (d <= D)%nat -> board_shape (board_of gs) ->
  length (states_visited_per_depth st) = S D ->
  exists r, minimax max_turns alphabeta h (Z.of_nat D) expired gs d t is_max alpha beta st
            = Some r.
Proof.
  induction d as [|d IH]; intros gs t is_max alpha beta st Hd Hs Hl; cbn [minimax].
  - destruct (py_incr_in_range (states_visited_per_depth st) (Z.of_nat D - Z.of_nat 0))
      as [pd E]; [rewrite Hl; lia|].
    rewrite E. destruct (Hh gs t Hs) as [v Ev]. rewrite Ev. eauto.
  - destruct (py_incr_in_range (states_visited_per_depth st) (Z.of_nat D - Z.of_nat (S d)))
      as [pd E]; [rewrite Hl; lia|].
    rewrite E. apply py_incr_length in E.
    destruct (_ || _); [destruct (Hh gs t Hs) as [v Ev]; rewrite Ev; eauto|].
    destruct (valid_moves_some gs Hs) as [ms Ev].
    assert (Hr : run_moves gs = Some ms) by (unfold run_moves; rewrite Ev; reflexivity).
    rewrite Hr.
    assert (Hm : forall m, In m ms ->
              exists s', apply_move max_turns m gs = Some s' /\ board_shape (board_of s'))
      by (intros m Hin; exact (legal_move_applies max_turns gs ms m Hs Ev Hin)).
    assert (Hc : forall is_max' ps a b st', board_shape (board_of ps) ->
              length (states_visited_per_depth st') = S D ->
              exists r, minimax max_turns alphabeta h (Z.of_nat D) expired ps d t is_max' a b st'
                        = Some r /\ length (states_visited_per_depth (snd r)) = S D).
    { intros is_max' ps a b st' Hps Hl'.
      destruct (IH ps t is_max' a b st' ltac:(lia) Hps Hl') as [r Er].
      exists r. split; [exact Er|].
      destruct (minimax_grows max_turns alphabeta h (Z.of_nat D) expired d
                  ps t is_max' a b st' r Er) as [_ Hg].
      congruence. }
    assert (Hl2 : length (states_visited_per_depth
                    (mk_stats (total_nodes st + 1) (non_leaf_nodes st + 1) pd)) = S D)
      by (cbn; congruence).
    destruct is_max.
    + exact (loop_max_some _ gs beta (S D) (Hc false) ms Hm NegInf None alpha _ Hl2).
    + exact (loop_min_some _ gs alpha (S D) (Hc true) ms Hm PosInf None beta _ Hl2).
Qed.

End SearchTotal.

Lemma heuristics_total h :
  h = e0 \/ h = e1 \/ h = e2 ->
  forall gs t, board_shape (board_of gs) -> exists v, h gs t = Some v.
Proof.
  intros Hh gs t Hs. destruct Hh as [-> | [-> | ->]].
  - eexists; reflexivity.
  - destruct (king_safety_bound gs t Hs) as (k & Ek & _).
    unfold e1. rewrite Ek. eexists; reflexivity.
  - destruct (e2_bound gs Hs) as (w & Ew & Eb & _).
    destruct t; eexists; eassumption.
Qed.

(** For a non-negative search depth, the search the game loop runs never
    raises from a 5x5 board with the heuristics [e0], [e1] and [e2],
    whatever the deadline does, as long as [states_visited_per_depth] has
    [depth + 1] entries, as [set_stats] makes it and as every search leaves
    it. (A negative depth is outside [search]'s [nat] argument: there
    [set_stats] builds an empty list and the first statement of [minimax]
    raises [IndexError].) *)
Theorem search_never_fails max_turns alphabeta h depth expired s st :
  h = e0 \/ h = e1 \/ h = e2 ->
  board_shape (board_of s) ->
  length (states_visited_per_depth st) = S depth ->
  (exists r, search max_turns alphabeta h depth expired s st = Some r) /\
  (forall r, search max_turns alphabeta h depth expired s st = Some r ->
     length (states_visited_per_depth (snd r)) = S depth).
Proof.
  intros Hh Hs Hl. unfold search. split.
  - exact (minimax_some max_turns alphabeta h depth expired (heuristics_total h Hh)
             depth s (turn s) true NegInf PosInf st (le_n _) Hs Hl).
  - intros r Er.
    destruct (minimax_grows max_turns alphabeta h (Z.of_nat depth) expired depth
                s (turn s) true NegInf PosInf st r Er) as [_ Hg].
    congruence.
Qed.

Lemma search_never_fails_witness :
  (exists r, search 10 true e1 2 (fun n => 50 <=? n) init_board (fresh_stats 2) = Some r) /\
  (forall r, search 10 true e1 2 (fun n => 50 <=? n) init_board (fresh_stats 2) = Some r ->
     length (states_visited_per_depth (snd r)) = 3%nat).
Proof.
  assert (Hshape : board_shape (board_of init_board)).
  { split; [reflexivity|]. repeat constructor. }
  exact (search_never_fails 10 true e1 2 (fun n => 50 <=? n) init_board (fresh_stats 2)
           (or_intror (or_introl eq_refl)) Hshape eq_refl).
Defined.
